(** * Open/R netlink: system handler and in-memory protocol socket

  A shallow embedding of
  - [NetlinkSystemHandler] (link and interface-address operations),
  - [FakeNetlinkProtocolSocket] (the in-memory protocol socket used by the
    tests), and
  - the default receive callbacks of [NetlinkMessage],
  together with the properties the design document states about them.

  Conventions.  C++ [int], [int16_t] and [uint8_t] values are integers in
  [Z]; the only narrowing the code performs (a 16-bit scope handed to the
  8-bit scope field of an address) is written out.  [std::map] and
  [std::unordered_map] are finite maps ([gmap]); a map is traversed in the
  order of [map_to_list], so lists read off a map are stated up to
  permutation, and [getIfIndex] depends on that order only when two links
  share a name.  A [folly::SemiFuture] that the callee has already fulfilled is
  its value; requests are issued, and their results collected, in program
  order. *)

From Stdlib Require Import ZArith.
From stdpp Require Import gmap strings list fin_maps.

Local Open Scope Z_scope.
Set Warnings "-clear-no-such-hyp".

(** ** Constants of <errno.h>, <sys/socket.h> and <linux/rtnetlink.h> *)

Definition ESRCH : Z := 3.
Definition ENXIO : Z := 6.
Definition EEXIST : Z := 17.
Definition ENODEV : Z := 19.
Definition EADDRNOTAVAIL : Z := 99.

Definition AF_INET : Z := 2.
Definition AF_INET6 : Z := 10.
Definition AF_MPLS : Z := 28.

Definition RT_SCOPE_UNIVERSE : Z := 0.
Definition RT_SCOPE_LINK : Z := 253.
Definition RT_SCOPE_HOST : Z := 254.

(** Conversion to [uint8_t]. *)
Definition to_uint8 (z : Z) : Z := z mod 256.

(** [emplace] of [std::map] and [std::unordered_map]: no effect when the key is present. *)
Definition emplace `{Countable K} {V} (k : K) (v : V) (m : gmap K V)
    : gmap K V :=
  match m !! k with Some _ => m | None => <[k := v]> m end.

(** ** Exceptions and results *)

Inductive Exception : Type :=
| bad_optional_access   (* std::bad_optional_access, from optional::value() *)
| out_of_range          (* std::out_of_range, from unordered_map::at() *)
| NlException (what : string) (err : Z).   (* fbnl::NlException *)

(** [folly::Try<A>]: what a completed future holds. *)
Inductive Try (A : Type) : Type :=
| Value (a : A)
| Raised (e : Exception).
Arguments Value {A} a.
Arguments Raised {A} e.

(** The outcome of calling a handler method: either the call itself throws,
  or it hands back a future, which holds a value or an exception. *)
Inductive Call (A : Type) : Type :=
| Throws (e : Exception)
| SemiFuture (t : Try A).
Arguments Throws {A} e.
Arguments SemiFuture {A} t.

(** ** Addresses and prefixes

  [folly::IPAddress] and the conversions of openr/common/NetworkUtil.h are
  not part of the sources at hand; they are taken as parameters.
  [toIPNetwork p] stands for [toIPNetwork(p, false /* applyMask */)]. *)

Class NetworkUtil : Type := {
  IPAddress : Type;
  IPAddress_eq_dec :: EqDecision IPAddress;
  IPAddress_countable :: Countable IPAddress;
  isLoopback : IPAddress → bool;
  isLinkLocal : IPAddress → bool;
  family : IPAddress → Z;
  (* thrift::IpPrefix *)
  IpPrefix : Type;
  IpPrefix_eq_dec :: EqDecision IpPrefix;
  toIPNetwork : IpPrefix → IPAddress * Z;
  toIpPrefix : IPAddress * Z → IpPrefix;
}.

(** [folly::CIDRNetwork] is [std::pair<IPAddress, uint8_t>]. *)
Abbreviation CIDRNetwork := (IPAddress * Z)%type.

(** ** Object model: the getters the code uses *)

Module Link.
Record t : Type := mk {
  getIfIndex : Z;
  getLinkName : string;
  isUp : bool;
  isLoopback : bool;
}.
End Link.

Module IfAddress.
Record t `{NetworkUtil} : Type := mk {
  getIfIndex : Z;
  getPrefix : option CIDRNetwork;
  getFamily : Z;
  getScope : Z;
}.
End IfAddress.

Module IfAddressBuilder.
Section defs.
Context `{NetworkUtil}.

Record t : Type := mk {
  prefix_ : option CIDRNetwork;
  ifIndex_ : Z;
  scope_ : Z;
}.

Definition init : t := mk None 0 0.

Definition setPrefix (n : CIDRNetwork) (b : t) : t :=
  mk (Some n) (ifIndex_ b) (scope_ b).

Definition setIfIndex (i : Z) (b : t) : t :=
  mk (prefix_ b) i (scope_ b).

(** The scope field is the 8-bit [ifa_scope]. *)
Definition setScope (sc : Z) (b : t) : t :=
  mk (prefix_ b) (ifIndex_ b) (to_uint8 sc).

(** Modelled from the spec: [IfAddressBuilder::build] (NetlinkTypes.h is
    missing).  The built address carries the builder's fields; its family
    is the family of its prefix ("family: AF_INET|AF_INET6" of the
    "prefix: (IP address, prefix length)"). *)
Definition build (b : t) : IfAddress.t :=
  IfAddress.mk _ (ifIndex_ b) (prefix_ b)
    (from_option (λ n, family n.1) 0 (prefix_ b)) (scope_ b).
End defs.
End IfAddressBuilder.

Module Route.
Record t `{NetworkUtil} : Type := mk {
  getProtocolId : Z;
  getFamily : Z;
  getDestination : CIDRNetwork;
  getMplsLabel : option Z;
  getType : Z;
  getNextHops : list (option IPAddress * option Z);
}.
End Route.

(** ** thrift::Link, the handler's view of a link *)

Module ThriftLink.
Record t `{NetworkUtil} : Type := mk {
  ifName : string;
  ifIndex : Z;
  isUp : bool;
  networks : list IpPrefix;
}.
End ThriftLink.

(** ** The protocol-socket interface the handler talks to

  Only the four requests the handler issues.  A mutating request takes the
  socket's state to a new state and yields the kernel's status code. *)

Module NetlinkProtocolSocket.
Class t `{NetworkUtil} (S : Type) : Type := {
  addIfAddress : IfAddress.t → S → S * Z;
  deleteIfAddress : IfAddress.t → S → S * Z;
  getAllIfAddresses : S → list IfAddress.t;
  getAllLinks : S → list Link.t;
}.
#[global] Hint Mode NetlinkProtocolSocket.t - ! : typeclass_instances.
End NetlinkProtocolSocket.

(** ** FakeNetlinkProtocolSocket: the in-memory socket *)

Module FakeNetlinkProtocolSocket.
Section defs.
Context `{NetworkUtil}.

(** The four tables ([std::map]s in FakeNetlinkProtocolSocket.h, which is not
    among the sources; route tables are indexed by protocol first). *)
Record t : Type := mk {
  links_ : gmap Z Link.t;
  ifAddrs_ : gmap Z (list IfAddress.t);
  unicastRoutes_ : gmap Z (gmap CIDRNetwork Route.t);
  mplsRoutes_ : gmap Z (gmap Z Route.t);
}.

Definition init : t := mk ∅ ∅ ∅ ∅.

Definition set_links (f : gmap Z Link.t → gmap Z Link.t) (s : t) : t :=
  mk (f (links_ s)) (ifAddrs_ s) (unicastRoutes_ s) (mplsRoutes_ s).
Definition set_ifAddrs
    (f : gmap Z (list IfAddress.t) → gmap Z (list IfAddress.t)) (s : t) : t :=
  mk (links_ s) (f (ifAddrs_ s)) (unicastRoutes_ s) (mplsRoutes_ s).
Definition set_unicastRoutes
    (f : gmap Z (gmap CIDRNetwork Route.t) → gmap Z (gmap CIDRNetwork Route.t))
    (s : t) : t :=
  mk (links_ s) (ifAddrs_ s) (f (unicastRoutes_ s)) (mplsRoutes_ s).
Definition set_mplsRoutes
    (f : gmap Z (gmap Z Route.t) → gmap Z (gmap Z Route.t)) (s : t) : t :=
  mk (links_ s) (ifAddrs_ s) (unicastRoutes_ s) (f (mplsRoutes_ s)).

(** [m[k]] of a [std::map] whose values are maps: the entry is created empty
    when it is missing, and is then read or written in place. *)
Definition subscript `{Countable K, Countable K'} {V}
    (k : K) (m : gmap K (gmap K' V)) : gmap K' V :=
  default ∅ (m !! k).
Definition update_at `{Countable K, Countable K'} {V}
    (k : K) (f : gmap K' V → gmap K' V) (m : gmap K (gmap K' V))
    : gmap K (gmap K' V) :=
  <[k := f (subscript k m)]> m.

(** [addRoute]: blindly replace an existing route.  For an MPLS route
    without a label, [getMplsLabel().value()] throws after [mplsRoutes_[proto]]
    has been evaluated. *)
Definition addRoute (route : Route.t) (s : t) : t * Try Z :=
  let proto := Route.getProtocolId route in
  if decide (Route.getFamily route = AF_MPLS) then
    match Route.getMplsLabel route with
    | Some label =>
        (set_mplsRoutes (update_at proto (insert label route)) s, Value 0)
    | None =>
        (set_mplsRoutes (update_at proto id) s, Raised bad_optional_access)
    end
  else
    (set_unicastRoutes
       (update_at proto (insert (Route.getDestination route) route)) s,
     Value 0).

(** [deleteRoute]: 0 when an element was erased, else ESRCH. *)
Definition deleteRoute (route : Route.t) (s : t) : t * Try Z :=
  let proto := Route.getProtocolId route in
  if decide (Route.getFamily route = AF_MPLS) then
    match Route.getMplsLabel route with
    | Some label =>
        let cnt : Z :=
          if subscript proto (mplsRoutes_ s) !! label is Some _ then 1 else 0 in
        (set_mplsRoutes (update_at proto (delete label)) s,
         Value (if decide (cnt ≠ 0) then 0 else ESRCH))
    | None =>
        (set_mplsRoutes (update_at proto id) s, Raised bad_optional_access)
    end
  else
    let dest := Route.getDestination route in
    let cnt : Z :=
      if subscript proto (unicastRoutes_ s) !! dest is Some _ then 1 else 0 in
    (set_unicastRoutes (update_at proto (delete dest)) s,
     Value (if decide (cnt ≠ 0) then 0 else ESRCH)).

(** All routes of a two-level table, outer map first. *)
Definition tableRoutes `{Countable K} (m : gmap Z (gmap K Route.t))
    : list Route.t :=
  mjoin ((λ kv, (map_to_list kv.2).*2) <$> map_to_list m).

(** The [applyFilter] lambda of [getRoutes]: does the route pass? *)
Definition applyFilter (filter route : Route.t) : bool :=
  let filterFamily := Route.getFamily filter in
  let filterProto := Route.getProtocolId filter in
  let filterType := Route.getType filter in
  if bool_decide (filterProto ≠ 0 ∧ filterProto ≠ Route.getProtocolId route)
  then false
  else if bool_decide (filterFamily ≠ 0 ∧ filterFamily ≠ Route.getFamily route)
  then false
  else if bool_decide (filterType ≠ 0 ∧ filterType ≠ Route.getType route)
  then false
  else true.

Definition getRoutes (filter : Route.t) (s : t) : list Route.t :=
  base.filter (λ route, applyFilter filter route)
    (tableRoutes (mplsRoutes_ s) ++ tableRoutes (unicastRoutes_ s)).

(** Is there an address with the prefix of [addr] in the list? *)
Definition samePrefix (addr a : IfAddress.t) : bool :=
  bool_decide (IfAddress.getPrefix a = IfAddress.getPrefix addr).

(** [std::list::erase] at the first address with the prefix of [addr];
    [None] when the loop runs to the end. *)
Fixpoint eraseFirst (addr : IfAddress.t) (l : list IfAddress.t)
    : option (list IfAddress.t) :=
  match l with
  | [] => None
  | a :: l' =>
      if samePrefix addr a then Some l'
      else cons a <$> eraseFirst addr l'
  end.

Definition addIfAddress (addr : IfAddress.t) (s : t) : t * Z :=
  match ifAddrs_ s !! IfAddress.getIfIndex addr with
  | None => (s, - ENXIO)
  | Some l =>
      if bool_decide (IfAddress.getPrefix addr = None) then (s, - ENXIO)
      else if existsb (samePrefix addr) l then (s, - EEXIST)
      else
        (set_ifAddrs (insert (IfAddress.getIfIndex addr) (l ++ [addr])) s, 0)
  end.

Definition deleteIfAddress (addr : IfAddress.t) (s : t) : t * Z :=
  match ifAddrs_ s !! IfAddress.getIfIndex addr with
  | None => (s, - ENXIO)
  | Some l =>
      if bool_decide (IfAddress.getPrefix addr = None) then (s, - ENXIO)
      else
        match eraseFirst addr l with
        | Some l' =>
            (set_ifAddrs (insert (IfAddress.getIfIndex addr) l') s, 0)
        | None => (s, - EADDRNOTAVAIL)
        end
  end.

Definition getAllIfAddresses (s : t) : list IfAddress.t :=
  mjoin ((map_to_list (ifAddrs_ s)).*2).

Definition addLink (link : Link.t) (s : t) : t * Z :=
  let idx := Link.getIfIndex link in
  if links_ s !! idx is Some _ then (s, - EEXIST)
  else (set_ifAddrs (emplace idx []) (set_links (emplace idx link) s), 0).

Definition getAllLinks (s : t) : list Link.t :=
  (map_to_list (links_ s)).*2.

(** [utils::createIfAddress], past the parsing of the address string. *)
Definition createIfAddress (ifIndex : Z) (network : CIDRNetwork)
    : IfAddress.t :=
  let builder :=
    IfAddressBuilder.setPrefix network
      (IfAddressBuilder.setIfIndex ifIndex IfAddressBuilder.init) in
  IfAddressBuilder.build
    (if isLoopback network.1 then
       IfAddressBuilder.setScope RT_SCOPE_HOST builder
     else if isLinkLocal network.1 then
       IfAddressBuilder.setScope RT_SCOPE_LINK builder
     else IfAddressBuilder.setScope RT_SCOPE_UNIVERSE builder).

(** The key under which a route is stored: protocol and label for the MPLS
    family, protocol and destination otherwise (none for an MPLS route
    without a label, which neither [addRoute] nor [deleteRoute] accepts). *)
Inductive RouteKey : Type :=
| UnicastKey (proto : Z) (dest : CIDRNetwork)
| MplsKey (proto : Z) (label : Z).

#[global] Instance RouteKey_eq_dec : EqDecision RouteKey.
Proof. solve_decision. Defined.

Definition routeKey (route : Route.t) : option RouteKey :=
  if decide (Route.getFamily route = AF_MPLS)
  then MplsKey (Route.getProtocolId route) <$> Route.getMplsLabel route
  else Some (UnicastKey (Route.getProtocolId route)
               (Route.getDestination route)).

Definition lookupRoute (k : RouteKey) (s : t) : option Route.t :=
  match k with
  | UnicastKey proto dest => unicastRoutes_ s !! proto ≫= (.!! dest)
  | MplsKey proto label => mplsRoutes_ s !! proto ≫= (.!! label)
  end.

(** A filter that lets every route pass. *)
Definition anyRoute (dest : CIDRNetwork) : Route.t :=
  Route.mk _ 0 0 dest None 0 [].

(** The addresses stored for an interface index. *)
Definition addrsOf (ifIndex : Z) (s : t) : list IfAddress.t :=
  default [] (ifAddrs_ s !! ifIndex).

(** An address of interface [i] that has a prefix. *)
Definition forIface (i : Z) (a : IfAddress.t) : Prop :=
  IfAddress.getIfIndex a = i ∧ is_Some (IfAddress.getPrefix a).

(** What every run of the socket maintains. *)
Record wf (s : t) : Prop := mk_wf {
  wf_dom : dom (ifAddrs_ s) = dom (links_ s);
  wf_link : ∀ k link, links_ s !! k = Some link → Link.getIfIndex link = k;
  wf_addr : ∀ k addrs, ifAddrs_ s !! k = Some addrs →
    Forall (λ a, IfAddress.getIfIndex a = k ∧ is_Some (IfAddress.getPrefix a))
      addrs ∧
    NoDup (IfAddress.getPrefix <$> addrs);
  wf_route : ∀ k r, lookupRoute k s = Some r → routeKey r = Some k;
}.

(** The calls that change the socket, and runs of them. *)
Inductive Op : Type :=
| AddRoute (r : Route.t)
| DeleteRoute (r : Route.t)
| AddIfAddress (a : IfAddress.t)
| DeleteIfAddress (a : IfAddress.t)
| AddLink (l : Link.t).

Definition step (s : t) (op : Op) : t :=
  match op with
  | AddRoute r => (addRoute r s).1
  | DeleteRoute r => (deleteRoute r s).1
  | AddIfAddress a => (addIfAddress a s).1
  | DeleteIfAddress a => (deleteIfAddress a s).1
  | AddLink l => (addLink l s).1
  end.

Definition run (ops : list Op) (s : t) : t := foldl step s ops.

(** The interface indexes of the links a run hands to [addLink]. *)
Definition addedLinks (ops : list Op) : list Z :=
  omap (λ op, if op is AddLink l then Some (Link.getIfIndex l) else None) ops.

End defs.

#[global] Instance socket `{NetworkUtil} : NetlinkProtocolSocket.t t := {|
  NetlinkProtocolSocket.addIfAddress := addIfAddress;
  NetlinkProtocolSocket.deleteIfAddress := deleteIfAddress;
  NetlinkProtocolSocket.getAllIfAddresses := getAllIfAddresses;
  NetlinkProtocolSocket.getAllLinks := getAllLinks;
|}.
End FakeNetlinkProtocolSocket.

(** ** NetlinkSystemHandler *)

Module NetlinkSystemHandler.
Section defs.
Context `{NetworkUtil} {S : Type} `{!NetlinkProtocolSocket.t S}.

(** A request handed to the socket. *)
Inductive Request : Type :=
| AddIfAddress (a : IfAddress.t)
| DeleteIfAddress (a : IfAddress.t).

Definition send (r : Request) (s : S) : S * Z :=
  match r with
  | AddIfAddress a => NetlinkProtocolSocket.addIfAddress a s
  | DeleteIfAddress a => NetlinkProtocolSocket.deleteIfAddress a s
  end.

(** Issue the requests in order; the status codes come back in the same
    order (the [futures] vector). *)
Fixpoint issue (reqs : list Request) (s : S) : S * list Z :=
  match reqs with
  | [] => (s, [])
  | r :: reqs' =>
      let '(s1, ret) := send r s in
      let '(s2, rets) := issue reqs' s1 in
      (s2, ret :: rets)
  end.

(** [getIfIndex]: the index of the first link with the given name. *)
Definition getIfIndex (ifName : string) (s : S) : option Z :=
  Link.getIfIndex <$>
    List.find (λ link, bool_decide (Link.getLinkName link = ifName))
      (NetlinkProtocolSocket.getAllLinks s).

(** *** getAllLinks *)

Definition createLinks (nlLinks : list Link.t) : gmap Z ThriftLink.t :=
  foldl
    (λ links nlLink,
       emplace (Link.getIfIndex nlLink)
         (ThriftLink.mk _ (Link.getLinkName nlLink) (Link.getIfIndex nlLink)
            (Link.isUp nlLink) [])
         links)
    ∅ nlLinks.

Definition addNetwork (p : IpPrefix) (link : ThriftLink.t) : ThriftLink.t :=
  ThriftLink.mk _ (ThriftLink.ifName link) (ThriftLink.ifIndex link)
    (ThriftLink.isUp link) (ThriftLink.networks link ++ [p]).

Fixpoint addAddresses (nlAddrs : list IfAddress.t)
    (links : gmap Z ThriftLink.t) : Try (gmap Z ThriftLink.t) :=
  match nlAddrs with
  | [] => Value links
  | nlAddr :: rest =>
      match links !! IfAddress.getIfIndex nlAddr with
      | None => Raised out_of_range
      | Some link =>
          match IfAddress.getPrefix nlAddr with
          | None => Raised bad_optional_access
          | Some prefix =>
              addAddresses rest
                (<[IfAddress.getIfIndex nlAddr :=
                     addNetwork (toIpPrefix prefix) link]> links)
          end
      end
  end.

Definition semifuture_getAllLinks (s : S) : Call (list ThriftLink.t) :=
  SemiFuture
    match
      addAddresses (NetlinkProtocolSocket.getAllIfAddresses s)
        (createLinks (NetlinkProtocolSocket.getAllLinks s))
    with
    | Value links => Value (map_to_list links).*2
    | Raised e => Raised e
    end.

(** *** add and remove *)

Definition addressScope (network : CIDRNetwork) : Z :=
  if isLoopback network.1 then RT_SCOPE_HOST
  else if isLinkLocal network.1 then RT_SCOPE_LINK
  else RT_SCOPE_UNIVERSE.

Definition addRemoveAddress (ifIndex : Z) (addr : IpPrefix) : IfAddress.t :=
  let network := toIPNetwork addr in
  IfAddressBuilder.build
    (IfAddressBuilder.setScope (addressScope network)
       (IfAddressBuilder.setIfIndex ifIndex
          (IfAddressBuilder.setPrefix network IfAddressBuilder.init))).

Definition addRemoveRequest (isAdd : bool) (ifIndex : Z) (addr : IpPrefix)
    : Request :=
  if isAdd then AddIfAddress (addRemoveAddress ifIndex addr)
  else DeleteIfAddress (addRemoveAddress ifIndex addr).

(** A status code the handler takes for success. *)
Definition benign (ret : Z) : Prop :=
  Z.abs ret = 0 ∨ Z.abs ret = EEXIST ∨ Z.abs ret = EADDRNOTAVAIL.

(** The continuation on the collected status codes. *)
Fixpoint collectRetvals (retvals : list Z) : Try () :=
  match retvals with
  | [] => Value ()
  | retval :: rest =>
      let ret := Z.abs retval in
      if bool_decide (ret ≠ 0 ∧ ret ≠ EEXIST ∧ ret ≠ EADDRNOTAVAIL)
      then Raised (NlException "Address add/remove failed." ret)
      else collectRetvals rest
  end.

Definition addRemoveIfAddresses (isAdd : bool) (ifName : string)
    (addrs : list IpPrefix) (s : S) : S * Call () :=
  match getIfIndex ifName s with
  | None => (s, Throws bad_optional_access)
  | Some ifIndex =>
      let '(s', retvals) :=
        issue (addRemoveRequest isAdd ifIndex <$> addrs) s in
      (s', SemiFuture (collectRetvals retvals))
  end.

Definition semifuture_addIfaceAddresses (ifName : string)
    (addrs : list IpPrefix) (s : S) : S * Call () :=
  addRemoveIfAddresses true ifName addrs s.

Definition semifuture_removeIfaceAddresses (ifName : string)
    (addrs : list IpPrefix) (s : S) : S * Call () :=
  addRemoveIfAddresses false ifName addrs s.

(** *** get *)

(** Does the loop of [semifuture_getIfaceAddresses] keep the address? *)
Definition keepAddr (ifIndex family scope : Z) (nlAddr : IfAddress.t)
    : bool :=
  if bool_decide (IfAddress.getIfIndex nlAddr ≠ ifIndex) then false
  else if bool_decide (family ≠ 0 ∧ IfAddress.getFamily nlAddr ≠ family)
  then false
  else if bool_decide (IfAddress.getScope nlAddr ≠ scope) then false
  else true.

Fixpoint filterAddrs (ifIndex family scope : Z) (nlAddrs : list IfAddress.t)
    : Try (list IpPrefix) :=
  match nlAddrs with
  | [] => Value []
  | nlAddr :: rest =>
      if keepAddr ifIndex family scope nlAddr then
        match IfAddress.getPrefix nlAddr with
        | None => Raised bad_optional_access
        | Some prefix =>
            match filterAddrs ifIndex family scope rest with
            | Value addrs => Value (toIpPrefix prefix :: addrs)
            | Raised e => Raised e
            end
        end
      else filterAddrs ifIndex family scope rest
  end.

Definition semifuture_getIfaceAddresses (ifName : string) (family scope : Z)
    (s : S) : Call (list IpPrefix) :=
  match getIfIndex ifName s with
  | None => Throws bad_optional_access
  | Some ifIndex =>
      SemiFuture
        (filterAddrs ifIndex family scope
           (NetlinkProtocolSocket.getAllIfAddresses s))
  end.

(** *** sync *)

Definition syncAddress (ifIndex scope : Z) (addr : IpPrefix) : IfAddress.t :=
  IfAddressBuilder.build
    (IfAddressBuilder.setScope scope
       (IfAddressBuilder.setIfIndex ifIndex
          (IfAddressBuilder.setPrefix (toIPNetwork addr)
             IfAddressBuilder.init))).

(** The two loops: additions for the new addresses that are not among the
    old ones, then deletions for the old addresses that are not among the
    new ones. *)
Definition syncRequests (ifIndex scope : Z) (oldAddrs newAddrs : list IpPrefix)
    : list Request :=
  ((λ newAddr, AddIfAddress (syncAddress ifIndex scope newAddr)) <$>
     base.filter (λ newAddr, newAddr ∉ oldAddrs) newAddrs)
  ++
  ((λ oldAddr, DeleteIfAddress (syncAddress ifIndex scope oldAddr)) <$>
     base.filter (λ oldAddr, oldAddr ∉ newAddrs) oldAddrs).

(** [.get()] on the future of [semifuture_getIfaceAddresses] rethrows. *)
Definition semifuture_syncIfaceAddresses (iface : string) (family scope : Z)
    (newAddrs : list IpPrefix) (s : S) : S * Call () :=
  match getIfIndex iface s with
  | None => (s, Throws bad_optional_access)
  | Some ifIndex =>
      match semifuture_getIfaceAddresses iface family scope s with
      | Throws e | SemiFuture (Raised e) => (s, Throws e)
      | SemiFuture (Value oldAddrs) =>
          let '(s', retvals) :=
            issue (syncRequests ifIndex scope oldAddrs newAddrs) s in
          (s', SemiFuture (collectRetvals retvals))
      end
  end.

(** The loops of [semifuture_getAllLinks], in closed form: the entry a link
    starts with, an entry with more networks, and the networks of an
    index. *)
Definition bareLink (nlLink : Link.t) : Z * ThriftLink.t :=
  (Link.getIfIndex nlLink,
   ThriftLink.mk _ (Link.getLinkName nlLink) (Link.getIfIndex nlLink)
     (Link.isUp nlLink) []).

Definition withNetworks (ps : list IpPrefix) (link : ThriftLink.t)
    : ThriftLink.t :=
  ThriftLink.mk _ (ThriftLink.ifName link) (ThriftLink.ifIndex link)
    (ThriftLink.isUp link) (ThriftLink.networks link ++ ps).

Definition networksOf (k : Z) (nlAddrs : list IfAddress.t) : list IpPrefix :=
  toIpPrefix <$>
    omap IfAddress.getPrefix
      (filter (λ a, IfAddress.getIfIndex a = k) nlAddrs).

(** The entry [semifuture_getAllLinks] is to return for a link: the link
    with the prefixes of the addresses that carry its index. *)
Definition linkWithNetworks (nlAddrs : list IfAddress.t) (nlLink : Link.t)
    : ThriftLink.t :=
  ThriftLink.mk _ (Link.getLinkName nlLink) (Link.getIfIndex nlLink)
    (Link.isUp nlLink)
    (toIpPrefix <$>
       omap IfAddress.getPrefix
         (filter (λ a, IfAddress.getIfIndex a = Link.getIfIndex nlLink)
            nlAddrs)).

End defs.
End NetlinkSystemHandler.

(** ** A scripted protocol socket

    An implementation of the socket interface for observing the handler: it
    reports the links and addresses it is given, answers each add or delete
    with the status its script has for that request, and keeps the add and
    delete requests it was handed, in order.  Links and addresses are any
    lists; an address may lack a prefix ([getPrefix()] is a
    [std::optional]). *)

Module MockSocket.
Section defs.
Context `{NetworkUtil}.

Record t : Type := mk {
  links : list Link.t;
  addrs : list IfAddress.t;
  answer : NetlinkSystemHandler.Request → Z;
  log : list NetlinkSystemHandler.Request;
}.

Definition handle (r : NetlinkSystemHandler.Request) (m : t) : t * Z :=
  (mk (links m) (addrs m) (answer m) (log m ++ [r]), answer m r).

End defs.

#[global] Instance socket `{NetworkUtil} : NetlinkProtocolSocket.t t := {|
  NetlinkProtocolSocket.addIfAddress a :=
    handle (NetlinkSystemHandler.AddIfAddress a);
  NetlinkProtocolSocket.deleteIfAddress a :=
    handle (NetlinkSystemHandler.DeleteIfAddress a);
  NetlinkProtocolSocket.getAllIfAddresses := addrs;
  NetlinkProtocolSocket.getAllLinks := links;
|}.
End MockSocket.

(** ** NetlinkMessage: the receive callbacks *)

Module NetlinkMessage.
Section defs.
Context `{NetworkUtil}.

(** Modelled from the spec: the neighbor object (NetlinkTypes.h is missing),
    "{ifIndex, destination IP, link-layer address, state}". *)
Record Neighbor : Type := mkNeighbor {
  nbrIfIndex : Z;
  nbrDestination : IPAddress;
  nbrLinkAddress : option (list Z);
  nbrState : Z;
}.

(** What a callback does to the process: [CHECK(false) << msg] logs the
    message and aborts; otherwise the callback returns with the frame in a
    new state. *)
Inductive Effect (F : Type) : Type :=
| Abort (msg : string)
| Return (frame : F).
Arguments Abort {F} msg.
Arguments Return {F} frame.

(** The virtual table of a frame type with state [F]: for each callback,
    the subclass's override if it has one. *)
Record Overrides (F : Type) : Type := mkOverrides {
  override_rcvdRoute : option (Route.t → F → Effect F);
  override_rcvdLink : option (Link.t → F → Effect F);
  override_rcvdNeighbor : option (Neighbor → F → Effect F);
  override_rcvdIfAddress : option (IfAddress.t → F → Effect F);
}.

Arguments override_rcvdRoute {F} _.
Arguments override_rcvdLink {F} _.
Arguments override_rcvdNeighbor {F} _.
Arguments override_rcvdIfAddress {F} _.

(** The bodies in the base class. *)
Definition base_rcvdRoute {F} (route : Route.t) (frame : F) : Effect F :=
  Abort "Must be implemented by subclass".
Definition base_rcvdLink {F} (link : Link.t) (frame : F) : Effect F :=
  Abort "Must be implemented by subclass".
Definition base_rcvdNeighbor {F} (neighbor : Neighbor) (frame : F)
    : Effect F :=
  Abort "Must be implemented by subclass".
Definition base_rcvdIfAddress {F} (ifAddr : IfAddress.t) (frame : F)
    : Effect F :=
  Abort "Must be implemented by subclass".

(** Virtual dispatch. *)
Definition rcvdRoute {F} (vt : Overrides F) : Route.t → F → Effect F :=
  default base_rcvdRoute (override_rcvdRoute vt).
Definition rcvdLink {F} (vt : Overrides F) : Link.t → F → Effect F :=
  default base_rcvdLink (override_rcvdLink vt).
Definition rcvdNeighbor {F} (vt : Overrides F) : Neighbor → F → Effect F :=
  default base_rcvdNeighbor (override_rcvdNeighbor vt).
Definition rcvdIfAddress {F} (vt : Overrides F)
    : IfAddress.t → F → Effect F :=
  default base_rcvdIfAddress (override_rcvdIfAddress vt).

End defs.
Arguments Abort {F} msg.
Arguments Return {F} frame.
Arguments override_rcvdRoute {_ F} _.
Arguments override_rcvdLink {_ F} _.
Arguments override_rcvdNeighbor {_ F} _.
Arguments override_rcvdIfAddress {_ F} _.
End NetlinkMessage.

(** ** A concrete address model, for worked examples

    IPv4 and IPv6 addresses as numbers; a thrift prefix and a network are
    the same pair and the conversions copy it.  Loopback is 127.0.0.0/8 and
    ::1, link-local is 169.254.0.0/16 and fe80::/10. *)

Module Example.

Inductive IP : Type :=
| V4 (a : N)
| V6 (a : N).

#[global] Instance IP_eq_dec : EqDecision IP.
Proof. solve_decision. Defined.

#[global] Instance IP_countable : Countable IP :=
  inj_countable'
    (λ ip, match ip with V4 a => inl a | V6 a => inr a end)
    (λ x, match x with inl a => V4 a | inr a => V6 a end)
    (λ ip, match ip with V4 _ | V6 _ => eq_refl end).

Definition IP_isLoopback (ip : IP) : bool :=
  match ip with
  | V4 a => bool_decide (N.shiftr a 24 = 127%N)
  | V6 a => bool_decide (a = 1%N)
  end.

Definition IP_isLinkLocal (ip : IP) : bool :=
  match ip with
  | V4 a => bool_decide (N.shiftr a 16 = 43518%N)     (* 169.254 *)
  | V6 a => bool_decide (N.shiftr a 118 = 1018%N)     (* 1111 1110 10 *)
  end.

Definition IP_family (ip : IP) : Z :=
  match ip with V4 _ => AF_INET | V6 _ => AF_INET6 end.

#[global] Instance net : NetworkUtil := {|
  IPAddress := IP;
  isLoopback := IP_isLoopback;
  isLinkLocal := IP_isLinkLocal;
  family := IP_family;
  IpPrefix := IP * Z;
  toIPNetwork := id;
  toIpPrefix := id;
|}.

(** a.b.c.d *)
Definition ipv4 (a b c d : N) : IP :=
  V4 (N.lor (N.shiftl a 24) (N.lor (N.shiftl b 16) (N.lor (N.shiftl c 8) d))).

(** 10.0.0.1/24, 192.168.1.1/24, 10.0.0.0/8 and fe80::1/64 *)
Definition net_10_0_0_1 : IP * Z := (ipv4 10 0 0 1, 24).
Definition net_192_168_1_1 : IP * Z := (ipv4 192 168 1 1, 24).
Definition net_10_8 : IP * Z := (ipv4 10 0 0 0, 8).
Definition net_fe80_1 : IP * Z := (V6 (N.lor (N.shiftl 65152 112) 1), 64).

Definition eth0 : Link.t := Link.mk 1 "eth0" true false.
Definition lo : Link.t := Link.mk 2 "lo" true true.

(** Runs of the socket: links eth0 and lo; then 10.0.0.1/24 on eth0; or
    fe80::1/64 on eth0 (its scope is link); or both. *)
Definition twoLinks_ops : list FakeNetlinkProtocolSocket.Op :=
  [FakeNetlinkProtocolSocket.AddLink eth0;
   FakeNetlinkProtocolSocket.AddLink lo].
Definition kernel1_ops : list FakeNetlinkProtocolSocket.Op :=
  twoLinks_ops ++
  [FakeNetlinkProtocolSocket.AddIfAddress
     (FakeNetlinkProtocolSocket.createIfAddress 1 net_10_0_0_1)].
Definition kernel3_ops : list FakeNetlinkProtocolSocket.Op :=
  kernel1_ops ++
  [FakeNetlinkProtocolSocket.AddIfAddress
     (FakeNetlinkProtocolSocket.createIfAddress 1 net_fe80_1)].

Definition kernel1 : FakeNetlinkProtocolSocket.t :=
  FakeNetlinkProtocolSocket.run kernel1_ops FakeNetlinkProtocolSocket.init.
Definition kernel3 : FakeNetlinkProtocolSocket.t :=
  FakeNetlinkProtocolSocket.run kernel3_ops FakeNetlinkProtocolSocket.init.

(** A unicast route to 10.0.0.0/8 under protocol 99 with the given next
    hops, a filter on protocol 99, and an MPLS route for label 100. *)
Definition route_10_8 (nextHops : list (option IP * option Z)) : Route.t :=
  Route.mk _ 99 AF_INET net_10_8 None 1 nextHops.
Definition via1 : list (option IP * option Z) :=
  [(Some (ipv4 10 0 0 1), Some 1)].
Definition via2 : list (option IP * option Z) :=
  [(Some (ipv4 10 0 0 2), Some 1); (Some (ipv4 10 0 0 3), Some 1)].
Definition proto99 : Route.t := Route.mk _ 99 0 net_10_8 None 0 [].
Definition mpls100 : Route.t :=
  Route.mk _ 99 AF_MPLS net_10_8 (Some 100) 1 via1.

(** Scripted sockets reporting eth0 and lo: one that reports 10.0.0.1/24 on
    eth0 and answers every request with -ENXIO, and one that reports an
    address without prefix on eth0 and answers every request with 0. *)
Definition refusing : MockSocket.t :=
  MockSocket.mk [eth0; lo]
    [FakeNetlinkProtocolSocket.createIfAddress 1 net_10_0_0_1]
    (λ _, - ENXIO) [].
Definition prefixless : MockSocket.t :=
  MockSocket.mk [eth0; lo]
    [IfAddress.mk _ 1 None AF_INET RT_SCOPE_UNIVERSE]
    (λ _, 0) [].

(** A link wlan0 with index 3, an MPLS route without a label, and a
    scripted socket that reports an address on index 9, where no link is. *)
Definition wlan0 : Link.t := Link.mk 3 "wlan0" true false.
Definition mplsNoLabel : Route.t :=
  Route.mk _ 99 AF_MPLS net_10_8 None 1 via1.
Definition dangling : MockSocket.t :=
  MockSocket.mk [eth0; lo]
    [FakeNetlinkProtocolSocket.createIfAddress 9 net_10_0_0_1]
    (λ _, 0) [].

(** A frame type that overrides no callback. *)
Definition plainFrame : NetlinkMessage.Overrides () :=
  NetlinkMessage.mkOverrides () None None None None.

End Example.

(** * Properties *)

Import FakeNetlinkProtocolSocket (wf, wf_dom, wf_link, wf_addr, wf_route).

(** ** The address list of one interface *)

Section addr_list.
Context `{NetworkUtil}.
Implicit Types (a addr : IfAddress.t) (l : list IfAddress.t).

Lemma existsb_samePrefix addr l :
  existsb (FakeNetlinkProtocolSocket.samePrefix addr) l = true ↔
  IfAddress.getPrefix addr ∈ IfAddress.getPrefix <$> l.
Proof.
  rewrite existsb_exists, list_elem_of_fmap.
  unfold FakeNetlinkProtocolSocket.samePrefix.
  split.
  - intros (a & Hin & Heq). apply bool_decide_eq_true in Heq.
    exists a. split; [done | by apply list_elem_of_In].
  - intros (a & Heq & Hin). exists a.
    split; [by apply list_elem_of_In | by apply bool_decide_eq_true].
Qed.

Lemma eraseFirst_None addr l :
  FakeNetlinkProtocolSocket.eraseFirst addr l = None ↔
  IfAddress.getPrefix addr ∉ IfAddress.getPrefix <$> l.
Proof.
  induction l as [|a l IH]; simpl.
  - split; [intros _; apply not_elem_of_nil | done].
  - unfold FakeNetlinkProtocolSocket.samePrefix at 1.
    rewrite not_elem_of_cons. case_bool_decide as Heq.
    + split; [done | intros [Hne _]; by destruct Hne].
    + rewrite fmap_None, IH. split; [intros ?; split; [by intros ?|done] | by intros []].
Qed.

Lemma filter_all (P : IfAddress.t → Prop) `{!∀ a, Decision (P a)} l :
  Forall P l → filter P l = l.
Proof.
  induction 1 as [|a l Ha _ IH]; [done|].
  by rewrite filter_cons_True, IH.
Qed.

(** With distinct prefixes, erasing removes exactly the addresses with the
    prefix asked for. *)
Lemma eraseFirst_Some addr l l' :
  NoDup (IfAddress.getPrefix <$> l) →
  FakeNetlinkProtocolSocket.eraseFirst addr l = Some l' →
  l' = filter (λ a, IfAddress.getPrefix a ≠ IfAddress.getPrefix addr) l ∧
  IfAddress.getPrefix addr ∈ IfAddress.getPrefix <$> l.
Proof.
  revert l'. induction l as [|a l IH]; intros l' Hnd Her; simpl in *.
  - done.
  - apply NoDup_cons in Hnd as [Hnotin Hnd].
    unfold FakeNetlinkProtocolSocket.samePrefix at 1 in Her.
    rewrite filter_cons. case_bool_decide as Heq.
    + simplify_eq. rewrite decide_False by (intros Hne; by apply Hne).
      split; [| rewrite Heq; left].
      symmetry. apply filter_all, Forall_forall. intros x Hx Hex.
      apply Hnotin. rewrite Heq, <- Hex. by apply list_elem_of_fmap_2.
    + rewrite decide_True by done.
      destruct (FakeNetlinkProtocolSocket.eraseFirst addr l) as [l''|] eqn:E;
        simplify_eq/=.
      destruct (IH l'' Hnd eq_refl) as [-> Hin]. split; [done | by right].
Qed.

End addr_list.

(** ** The in-memory socket: route tables *)

Section fake_routes.
Context `{NetworkUtil}.
Import FakeNetlinkProtocolSocket.
Implicit Types (s : FakeNetlinkProtocolSocket.t) (k : RouteKey).

Lemma lookup_update_at `{Countable K, Countable K'} {V} (p p' : K) (i : K')
    (f : gmap K' V → gmap K' V) (m : gmap K (gmap K' V)) :
  update_at p f m !! p' ≫= (.!! i) =
  if decide (p = p') then f (subscript p m) !! i else m !! p' ≫= (.!! i).
Proof.
  unfold update_at. rewrite lookup_insert. by case_decide.
Qed.

Lemma lookup_subscript `{Countable K, Countable K'} {V} (p : K) (i : K')
    (m : gmap K (gmap K' V)) :
  subscript p m !! i = m !! p ≫= (.!! i).
Proof. unfold subscript. by destruct (m !! p). Qed.

Lemma routeKey_unicast (r : Route.t) :
  Route.getFamily r ≠ AF_MPLS →
  routeKey r =
  Some (UnicastKey (Route.getProtocolId r) (Route.getDestination r)).
Proof. intros. unfold routeKey. by rewrite decide_False. Qed.

Lemma routeKey_mpls (r : Route.t) :
  Route.getFamily r = AF_MPLS →
  routeKey r = MplsKey (Route.getProtocolId r) <$> Route.getMplsLabel r.
Proof. intros. unfold routeKey. by rewrite decide_True. Qed.

(** Lookups in a table whose row [p] was rewritten. *)
Ltac table_lookup :=
  rewrite lookup_update_at;
  case_decide; simplify_eq;
  rewrite ?lookup_insert, ?lookup_delete, ?lookup_subscript;
  repeat case_decide; simplify_eq; try done.

(** Adding a route stores it under its key, and nothing else changes. *)
Lemma lookupRoute_addRoute (r : Route.t) s k k' :
  routeKey r = Some k →
  lookupRoute k' (addRoute r s).1 =
  if decide (k' = k) then Some r else lookupRoute k' s.
Proof.
  unfold routeKey, addRoute. intros Hk.
  destruct (decide (Route.getFamily r = AF_MPLS));
    [destruct (Route.getMplsLabel r) as [label|]|]; simplify_eq/=;
    destruct (decide (k' = _)) as [->|Hne]; try destruct k';
    unfold lookupRoute, set_unicastRoutes, set_mplsRoutes; cbn [fst];
    cbn [unicastRoutes_ mplsRoutes_]; try done; table_lookup.
Qed.

(** An MPLS route without a label changes no stored route. *)
Lemma lookupRoute_addRoute_None (r : Route.t) s k' :
  routeKey r = None →
  (addRoute r s).2 = Raised bad_optional_access ∧
  lookupRoute k' (addRoute r s).1 = lookupRoute k' s.
Proof.
  unfold routeKey, addRoute. intros Hk.
  destruct (decide (Route.getFamily r = AF_MPLS)); [|done].
  destruct (Route.getMplsLabel r) as [label|]; simplify_eq/=.
  split; [done|]. destruct k'; [done|]. cbn. table_lookup.
  apply lookup_subscript.
Qed.

Lemma lookupRoute_deleteRoute (r : Route.t) s k k' :
  routeKey r = Some k →
  lookupRoute k' (deleteRoute r s).1 =
  if decide (k' = k) then None else lookupRoute k' s.
Proof.
  unfold routeKey, deleteRoute. intros Hk.
  destruct (decide (Route.getFamily r = AF_MPLS));
    [destruct (Route.getMplsLabel r) as [label|]|]; simplify_eq/=;
    destruct (decide (k' = _)) as [->|Hne]; try destruct k';
    unfold lookupRoute, set_unicastRoutes, set_mplsRoutes; cbn [fst];
    cbn [unicastRoutes_ mplsRoutes_]; try done; table_lookup.
Qed.

Lemma lookupRoute_deleteRoute_None (r : Route.t) s k' :
  routeKey r = None →
  (deleteRoute r s).2 = Raised bad_optional_access ∧
  lookupRoute k' (deleteRoute r s).1 = lookupRoute k' s.
Proof.
  unfold routeKey, deleteRoute. intros Hk.
  destruct (decide (Route.getFamily r = AF_MPLS)); [|done].
  destruct (Route.getMplsLabel r) as [label|]; simplify_eq/=.
  split; [done|]. destruct k'; [done|]. cbn. table_lookup.
  apply lookup_subscript.
Qed.

(** The status of [deleteRoute]. *)
Lemma deleteRoute_status (r : Route.t) s k :
  routeKey r = Some k →
  (deleteRoute r s).2 =
  Value (if lookupRoute k s is Some _ then 0 else ESRCH).
Proof.
  unfold routeKey, deleteRoute. intros Hk.
  destruct (decide (Route.getFamily r = AF_MPLS)).
  - destruct (Route.getMplsLabel r) as [label|]; simplify_eq/=.
    rewrite lookup_subscript.
    by destruct (mplsRoutes_ s !! Route.getProtocolId r ≫= (.!! label)).
  - simplify_eq/=. rewrite lookup_subscript.
    by destruct (unicastRoutes_ s !! Route.getProtocolId r
                   ≫= (.!! Route.getDestination r)).
Qed.

End fake_routes.

(** ** The in-memory socket: what every run maintains *)

Section fake_wf.
Context `{NetworkUtil}.
Import FakeNetlinkProtocolSocket.
Implicit Types (s : FakeNetlinkProtocolSocket.t) (addr : IfAddress.t).

Lemma wf_init : wf init.
Proof.
  split; simpl.
  - by rewrite !dom_empty_L.
  - intros k link Hl. by rewrite lookup_empty in Hl.
  - intros k addrs Hl. by rewrite lookup_empty in Hl.
  - intros [p d|p l] r; simpl; by rewrite lookup_empty.
Qed.

(** The route calls leave links and addresses alone. *)
Lemma addRoute_tables (r : Route.t) s :
  links_ (addRoute r s).1 = links_ s ∧
  ifAddrs_ (addRoute r s).1 = ifAddrs_ s.
Proof. unfold addRoute. by repeat case_match. Qed.

Lemma deleteRoute_tables (r : Route.t) s :
  links_ (deleteRoute r s).1 = links_ s ∧
  ifAddrs_ (deleteRoute r s).1 = ifAddrs_ s.
Proof. unfold deleteRoute. by repeat case_match. Qed.

Lemma wf_addRoute (r : Route.t) s : wf s → wf (addRoute r s).1.
Proof.
  intros [Hd Hl Ha Hr]. destruct (addRoute_tables r s) as [El Ea].
  split; rewrite ?El, ?Ea; try done.
  intros k r'. destruct (routeKey r) as [k0|] eqn:Hk.
  - rewrite (lookupRoute_addRoute r s k0 k Hk).
    case_decide; [by intros [= <-]; subst | apply Hr].
  - destruct (lookupRoute_addRoute_None r s k Hk) as [_ ->]. apply Hr.
Qed.

Lemma wf_deleteRoute (r : Route.t) s : wf s → wf (deleteRoute r s).1.
Proof.
  intros [Hd Hl Ha Hr]. destruct (deleteRoute_tables r s) as [El Ea].
  split; rewrite ?El, ?Ea; try done.
  intros k r'. destruct (routeKey r) as [k0|] eqn:Hk.
  - rewrite (lookupRoute_deleteRoute r s k0 k Hk).
    case_decide; [done | apply Hr].
  - destruct (lookupRoute_deleteRoute_None r s k Hk) as [_ ->]. apply Hr.
Qed.

(** The three ways [addIfAddress] ends. *)
Lemma addIfAddress_cases addr s :
  let idx := IfAddress.getIfIndex addr in
  (addIfAddress addr s = (s, - ENXIO) ∧
   (ifAddrs_ s !! idx = None ∨ IfAddress.getPrefix addr = None)) ∨
  (addIfAddress addr s = (s, - EEXIST) ∧
   is_Some (IfAddress.getPrefix addr) ∧
   IfAddress.getPrefix addr ∈ IfAddress.getPrefix <$> addrsOf idx s) ∨
  (addIfAddress addr s =
     (set_ifAddrs (insert idx (addrsOf idx s ++ [addr])) s, 0) ∧
   is_Some (ifAddrs_ s !! idx) ∧
   is_Some (IfAddress.getPrefix addr) ∧
   IfAddress.getPrefix addr ∉ IfAddress.getPrefix <$> addrsOf idx s).
Proof.
  intros idx. unfold addIfAddress, addrsOf. fold idx.
  destruct (ifAddrs_ s !! idx) as [l|] eqn:El; simpl; [|left; auto].
  case_bool_decide as Hp; [left; auto|]. right.
  apply not_eq_None_Some in Hp.
  destruct (existsb (samePrefix addr) l) eqn:Ex.
  - left. split_and!; [done..|]. by apply existsb_samePrefix.
  - right. split_and!; [done..|].
    rewrite <- existsb_samePrefix. by rewrite Ex.
Qed.

(** The three ways [deleteIfAddress] ends, on a list with distinct
    prefixes. *)
Lemma deleteIfAddress_cases addr s :
  let idx := IfAddress.getIfIndex addr in
  NoDup (IfAddress.getPrefix <$> addrsOf idx s) →
  (deleteIfAddress addr s = (s, - ENXIO) ∧
   (ifAddrs_ s !! idx = None ∨ IfAddress.getPrefix addr = None)) ∨
  (deleteIfAddress addr s = (s, - EADDRNOTAVAIL) ∧
   is_Some (IfAddress.getPrefix addr) ∧
   IfAddress.getPrefix addr ∉ IfAddress.getPrefix <$> addrsOf idx s) ∨
  (deleteIfAddress addr s =
     (set_ifAddrs
        (insert idx
           (filter (λ a, IfAddress.getPrefix a ≠ IfAddress.getPrefix addr)
              (addrsOf idx s))) s, 0) ∧
   is_Some (ifAddrs_ s !! idx) ∧
   is_Some (IfAddress.getPrefix addr) ∧
   IfAddress.getPrefix addr ∈ IfAddress.getPrefix <$> addrsOf idx s).
Proof.
  intros idx. unfold deleteIfAddress, addrsOf. fold idx.
  destruct (ifAddrs_ s !! idx) as [l|] eqn:El; simpl; [|left; auto].
  intros Hnd. case_bool_decide as Hp; [left; auto|]. right.
  apply not_eq_None_Some in Hp.
  destruct (eraseFirst addr l) as [l'|] eqn:Er.
  - right. destruct (eraseFirst_Some addr l l' Hnd Er) as [-> Hin]. done.
  - left. split_and!; [done..|]. by apply eraseFirst_None.
Qed.

Lemma wf_addrsOf s idx :
  wf s →
  Forall (λ a, IfAddress.getIfIndex a = idx ∧ is_Some (IfAddress.getPrefix a))
    (addrsOf idx s) ∧
  NoDup (IfAddress.getPrefix <$> addrsOf idx s).
Proof.
  intros Hwf. unfold addrsOf.
  destruct (ifAddrs_ s !! idx) as [l|] eqn:El; simpl.
  - by apply (wf_addr s Hwf).
  - split; constructor.
Qed.

(** Replacing the address list of a known interface by a list of addresses
    of that interface, with prefixes that are present and distinct. *)
Lemma wf_set_addrs s idx (l : list IfAddress.t) :
  wf s →
  is_Some (ifAddrs_ s !! idx) →
  Forall (λ a, IfAddress.getIfIndex a = idx ∧ is_Some (IfAddress.getPrefix a))
    l →
  NoDup (IfAddress.getPrefix <$> l) →
  wf (set_ifAddrs (insert idx l) s).
Proof.
  intros [Hd Hl Ha Hr] Hsome Hall Hnd. split; simpl; try done.
  - by rewrite dom_insert_lookup_L.
  - intros k addrs. rewrite lookup_insert. case_decide; [|apply Ha].
    by intros [= <-]; subst.
Qed.

Lemma wf_addIfAddress addr s : wf s → wf (addIfAddress addr s).1.
Proof.
  intros Hwf.
  destruct (wf_addrsOf s (IfAddress.getIfIndex addr) Hwf) as [Hall Hnd].
  destruct (addIfAddress_cases addr s)
    as [[-> _]|[[-> _]|(-> & Hsome & Hp & Hnotin)]]; [done..|].
  apply wf_set_addrs; [done..| |].
  - apply Forall_app. split; [done|]. by repeat constructor.
  - rewrite fmap_app. apply NoDup_app. split_and!; [done| |].
    + intros x Hx Hx'. apply list_elem_of_singleton in Hx'. by subst.
    + apply NoDup_singleton.
Qed.

Lemma wf_deleteIfAddress addr s : wf s → wf (deleteIfAddress addr s).1.
Proof.
  intros Hwf.
  destruct (wf_addrsOf s (IfAddress.getIfIndex addr) Hwf) as [Hall Hnd].
  destruct (deleteIfAddress_cases addr s Hnd)
    as [[-> _]|[[-> _]|(-> & Hsome & Hp & Hin)]]; [done..|].
  apply wf_set_addrs; [done..| |].
  - apply Forall_forall. intros x [_ Hx]%list_elem_of_filter.
    by eapply Forall_forall in Hall.
  - eapply sublist_NoDup; [exact Hnd|].
    apply fmap_sublist, sublist_filter.
Qed.

(** The two ways [addLink] ends. *)
Lemma addLink_cases (link : Link.t) s :
  wf s →
  let idx := Link.getIfIndex link in
  (addLink link s = (s, - EEXIST) ∧ is_Some (links_ s !! idx)) ∨
  (addLink link s =
     (set_ifAddrs (insert idx []) (set_links (insert idx link) s), 0) ∧
   links_ s !! idx = None ∧ ifAddrs_ s !! idx = None).
Proof.
  intros Hwf idx. subst idx. unfold addLink. cbv zeta.
  destruct (links_ s !! Link.getIfIndex link) as [l|] eqn:El; [left; eauto|].
  right.
  assert (ifAddrs_ s !! Link.getIfIndex link = None) as Ea.
  { apply not_elem_of_dom. rewrite (wf_dom s Hwf). by apply not_elem_of_dom. }
  unfold emplace, set_ifAddrs, set_links. cbn. by rewrite El, Ea.
Qed.

Lemma wf_addLink (link : Link.t) s : wf s → wf (addLink link s).1.
Proof.
  intros Hwf.
  destruct (addLink_cases link s Hwf) as [[-> _]|(-> & El & Ea)]; [done|].
  destruct Hwf as [Hd Hl Ha Hr]. split; simpl; try done.
  - by rewrite !dom_insert_L, Hd.
  - intros k l. rewrite lookup_insert. case_decide; [|apply Hl].
    by intros [= <-].
  - intros k addrs. rewrite lookup_insert. case_decide; [|apply Ha].
    intros [= <-]. split; constructor.
Qed.

Lemma wf_step s (op : Op) : wf s → wf (step s op).
Proof.
  destruct op; simpl;
    auto using wf_addRoute, wf_deleteRoute, wf_addIfAddress,
      wf_deleteIfAddress, wf_addLink.
Qed.

Lemma wf_run (ops : list Op) s : wf s → wf (run ops s).
Proof.
  unfold run. revert s.
  induction ops as [|op ops IH]; intros s Hwf; simpl; auto using wf_step.
Qed.

End fake_wf.

(** ** The in-memory socket: reading the tables *)

Section fake_reads.
Context `{NetworkUtil}.
Import FakeNetlinkProtocolSocket.
Implicit Types (s : FakeNetlinkProtocolSocket.t).

Lemma elem_of_getAllIfAddresses s (a : IfAddress.t) :
  a ∈ getAllIfAddresses s ↔ ∃ k l, ifAddrs_ s !! k = Some l ∧ a ∈ l.
Proof.
  unfold getAllIfAddresses. rewrite list_elem_of_join. split.
  - intros (l & Ha & Hl). apply list_elem_of_fmap in Hl as ([k l'] & -> & Hl).
    apply elem_of_map_to_list in Hl. eauto.
  - intros (k & l & Hl & Ha). exists l. split; [done|].
    apply list_elem_of_fmap. exists (k, l).
    split; [done | by apply elem_of_map_to_list].
Qed.

Lemma elem_of_tableRoutes `{Countable K} (m : gmap Z (gmap K Route.t))
    (r : Route.t) :
  r ∈ tableRoutes m ↔ ∃ p k, m !! p ≫= (.!! k) = Some r.
Proof.
  unfold tableRoutes. rewrite list_elem_of_join. split.
  - intros (l & Hr & Hl).
    apply list_elem_of_fmap in Hl as ([p inner] & -> & Hl).
    apply elem_of_map_to_list in Hl.
    apply list_elem_of_fmap in Hr as ([k r'] & -> & Hr).
    apply elem_of_map_to_list in Hr.
    exists p, k. by rewrite Hl.
  - intros (p & k & Hl).
    destruct (m !! p) as [inner|] eqn:Hp; simplify_eq/=.
    exists ((map_to_list inner).*2). split.
    + apply list_elem_of_fmap. exists (k, r).
      split; [done | by apply elem_of_map_to_list].
    + apply list_elem_of_fmap. exists (p, inner).
      split; [done | by apply elem_of_map_to_list].
Qed.

(** In a table whose routes sit under their own keys, no two listed routes
    share a key. *)
Lemma tableRoutes_NoDup `{Countable K} (mkKey : Z → K → RouteKey)
    (m : gmap Z (gmap K Route.t)) :
  (∀ p k p' k', mkKey p k = mkKey p' k' → p = p' ∧ k = k') →
  (∀ p k r, m !! p ≫= (.!! k) = Some r → routeKey r = Some (mkKey p k)) →
  NoDup (routeKey <$> tableRoutes m).
Proof.
  intros Hinj Hkey.
  assert (∀ p inner k r, (p, inner) ∈ map_to_list m →
            (k, r) ∈ map_to_list inner → routeKey r = Some (mkKey p k))
    as Hkey'.
  { intros p inner k r Hp%elem_of_map_to_list Hk%elem_of_map_to_list.
    apply Hkey. by rewrite Hp. }
  apply NoDup_fmap_2_strong.
  - intros r1 r2 [p1 [k1 H1]]%elem_of_tableRoutes
      [p2 [k2 H2]]%elem_of_tableRoutes Heq.
    apply Hkey in H1 as Hk1. apply Hkey in H2 as Hk2.
    rewrite Hk1, Hk2 in Heq. simplify_eq.
    destruct (Hinj _ _ _ _ Heq) as [-> ->]. congruence.
  - unfold tableRoutes. rewrite list_join_bind, list_fmap_bind.
    apply NoDup_bind; [| |apply NoDup_map_to_list].
    + intros [p1 i1] [p2 i2] r Hp1 Hp2 Hr1 Hr2. simpl in *.
      apply list_elem_of_fmap in Hr1 as ([k1 r1] & -> & Hr1).
      apply list_elem_of_fmap in Hr2 as ([k2 r2] & Heq & Hr2).
      simpl in *. subst r2.
      pose proof (Hkey' _ _ _ _ Hp1 Hr1) as E1.
      pose proof (Hkey' _ _ _ _ Hp2 Hr2) as E2.
      rewrite E1 in E2. simplify_eq. destruct (Hinj _ _ _ _ E2) as [-> _].
      apply elem_of_map_to_list in Hp1, Hp2. congruence.
    + intros [p inner] Hp. simpl.
      apply NoDup_fmap_2_strong; [|apply NoDup_map_to_list].
      intros [k1 r1] [k2 r2] Hr1 Hr2 Heq. simpl in *. subst r2.
      pose proof (Hkey' _ _ _ _ Hp Hr1) as E1.
      pose proof (Hkey' _ _ _ _ Hp Hr2) as E2.
      rewrite E1 in E2. simplify_eq. by destruct (Hinj _ _ _ _ E2) as [_ ->].
Qed.

Lemma elem_of_getRoutes (flt : Route.t) s (r : Route.t) :
  wf s →
  r ∈ getRoutes flt s ↔
  applyFilter flt r ∧ ∃ k, routeKey r = Some k ∧ lookupRoute k s = Some r.
Proof.
  intros Hwf. unfold getRoutes.
  rewrite list_elem_of_filter, elem_of_app, !elem_of_tableRoutes.
  apply and_iff_compat_l. split.
  - intros [(p & l & Hl)|(p & d & Hl)].
    + exists (MplsKey p l). split; [|done]. by apply (wf_route s Hwf).
    + exists (UnicastKey p d). split; [|done]. by apply (wf_route s Hwf).
  - intros ([p d|p l] & _ & Hl); eauto.
Qed.

Lemma getRoutes_NoDup (flt : Route.t) s :
  wf s → NoDup (routeKey <$> getRoutes flt s).
Proof.
  intros Hwf. unfold getRoutes.
  eapply sublist_NoDup; [|apply fmap_sublist, sublist_filter].
  rewrite fmap_app. apply NoDup_app. split_and!.
  - apply (tableRoutes_NoDup MplsKey); [by intros ???? [= -> ->]|].
    intros p l r Hl. by apply (wf_route s Hwf (MplsKey p l)).
  - intros k (r1 & -> & [p1 [l1 H1]]%elem_of_tableRoutes)%list_elem_of_fmap
      (r2 & Heq & [p2 [d2 H2]]%elem_of_tableRoutes)%list_elem_of_fmap.
    apply (wf_route s Hwf (MplsKey p1 l1)) in H1.
    apply (wf_route s Hwf (UnicastKey p2 d2)) in H2. congruence.
  - apply (tableRoutes_NoDup UnicastKey); [by intros ???? [= -> ->]|].
    intros p d r Hl. by apply (wf_route s Hwf (UnicastKey p d)).
Qed.

Lemma filter_key_absent {A B} `{EqDecision B} (f : A → B) (l : list A) b :
  b ∉ f <$> l → filter (λ y, f y = b) l = [].
Proof.
  induction l as [|a l IH]; [done|].
  rewrite fmap_cons, not_elem_of_cons. intros [Hne Hb].
  rewrite filter_cons_False by congruence. by apply IH.
Qed.

(** In a list without two elements of the same key, the elements with the
    key of a member are that member alone. *)
Lemma filter_key_NoDup {A B} `{EqDecision B} (f : A → B) (l : list A) x :
  NoDup (f <$> l) → x ∈ l → filter (λ y, f y = f x) l = [x].
Proof.
  induction l as [|a l IH]; intros Hnd Hx; [by apply elem_of_nil in Hx|].
  rewrite fmap_cons in Hnd. apply NoDup_cons in Hnd as [Ha Hnd].
  apply elem_of_cons in Hx as [->|Hx].
  - rewrite filter_cons_True by done. f_equal. by apply filter_key_absent.
  - rewrite filter_cons_False; [by apply IH|].
    intros Heq. apply Ha. rewrite Heq. by apply list_elem_of_fmap_2.
Qed.

Lemma dom_links_run (ops : list Op) s :
  wf s → dom (links_ (run ops s)) = dom (links_ s) ∪ list_to_set (addedLinks ops).
Proof.
  unfold run, addedLinks. revert s.
  induction ops as [|op ops IH]; intros s Hwf; simpl; [set_solver|].
  rewrite IH by by apply wf_step.
  destruct op as [r|r|a|a|link]; simpl.
  - by destruct (addRoute_tables r s) as [-> _].
  - by destruct (deleteRoute_tables r s) as [-> _].
  - by destruct (addIfAddress_cases a s) as [[-> _]|[[-> _]|[-> _]]].
  - destruct (wf_addrsOf s (IfAddress.getIfIndex a) Hwf) as [_ Hnd].
    by destruct (deleteIfAddress_cases a s Hnd) as [[-> _]|[[-> _]|[-> _]]].
  - destruct (addLink_cases link s Hwf) as [[-> Hs]|(-> & _ & _)]; simpl.
    + apply elem_of_dom in Hs. set_solver.
    + rewrite dom_insert_L. set_solver.
Qed.

End fake_reads.

(** ** The in-memory socket: routes, links and addresses *)

Section fake_claims.
Context `{NetworkUtil}.
Import FakeNetlinkProtocolSocket.

(** C3.  After any sequence of calls, no two stored routes share a key
    (protocol and destination for unicast, protocol and label for MPLS, the
    two kinds of key being distinct), and every listed route is the one
    stored under its own key.  Adding a route then succeeds, puts that very
    route (next hops included) under its key, leaves every other key as it
    was, and [getRoutes] lists exactly one route with that key: the new
    one. *)
Theorem route_keys_unique (ops : list Op) (flt : Route.t) :
  let s := run ops init in
  NoDup (routeKey <$> getRoutes flt s) ∧
  (∀ r, r ∈ getRoutes flt s →
     ∃ k, routeKey r = Some k ∧ lookupRoute k s = Some r) ∧
  (∀ p d l, UnicastKey p d ≠ MplsKey p l) ∧
  (∀ r k, routeKey r = Some k →
     let s' := (addRoute r s).1 in
     (addRoute r s).2 = Value 0 ∧
     lookupRoute k s' = Some r ∧
     (∀ k', k' ≠ k → lookupRoute k' s' = lookupRoute k' s) ∧
     (applyFilter flt r →
      filter (λ x, routeKey x = Some k) (getRoutes flt s') = [r])).
Proof.
  intros s. assert (wf s) as Hwf by apply wf_run, wf_init.
  split_and!.
  - by apply getRoutes_NoDup.
  - intros r Hr. by apply elem_of_getRoutes in Hr as [_ ?].
  - done.
  - intros r k Hk s'. split_and!.
    + unfold addRoute, routeKey in *. repeat case_match; simplify_eq/=; done.
    + unfold s'. rewrite (lookupRoute_addRoute r s k k Hk).
      by rewrite decide_True.
    + intros k' Hne. unfold s'. rewrite (lookupRoute_addRoute r s k k' Hk).
      by rewrite decide_False.
    + intros Hflt. assert (wf s') as Hwf' by by apply wf_addRoute.
      rewrite <- Hk. apply filter_key_NoDup; [by apply getRoutes_NoDup|].
      apply elem_of_getRoutes; [done|]. split; [done|]. exists k.
      split; [done|]. unfold s'. rewrite (lookupRoute_addRoute r s k k Hk).
      by rewrite decide_True.
Qed.

(** C9.  [deleteRoute] on a route with key [k] resolves with 0 exactly when
    a route was stored under [k], and with ESRCH otherwise; afterwards
    nothing is stored under [k] and every other key is as before.  ESRCH is
    not EADDRNOTAVAIL, and the handler's check of status codes turns it into
    a failure. *)
Theorem deleteRoute_absent_is_ESRCH (route : Route.t)
    (s : FakeNetlinkProtocolSocket.t) (k : RouteKey) :
  routeKey route = Some k →
  (deleteRoute route s).2 =
    Value (if lookupRoute k s is Some _ then 0 else ESRCH) ∧
  ((deleteRoute route s).2 = Value 0 ↔ is_Some (lookupRoute k s)) ∧
  lookupRoute k (deleteRoute route s).1 = None ∧
  (∀ k', k' ≠ k →
     lookupRoute k' (deleteRoute route s).1 = lookupRoute k' s) ∧
  ESRCH ≠ EADDRNOTAVAIL ∧
  NetlinkSystemHandler.collectRetvals [ESRCH] =
    Raised (NlException "Address add/remove failed." ESRCH).
Proof.
  intros Hk. rewrite (deleteRoute_status route s k Hk). split_and!.
  - done.
  - destruct (lookupRoute k s); split; try done; by eauto.
  - rewrite (lookupRoute_deleteRoute route s k k Hk). by rewrite decide_True.
  - intros k' Hne. rewrite (lookupRoute_deleteRoute route s k k' Hk).
    by rewrite decide_False.
  - done.
  - done.
Qed.

(** C6.  After any sequence of calls, adding or deleting an interface
    address whose interface index is the index of no link is answered with
    -ENXIO ("no such device or address") and changes nothing. *)
Theorem ifaddr_unknown_ifindex_rejected (ops : list Op) (addr : IfAddress.t) :
  let s := run ops init in
  links_ s !! IfAddress.getIfIndex addr = None →
  addIfAddress addr s = (s, - ENXIO) ∧
  deleteIfAddress addr s = (s, - ENXIO).
Proof.
  intros s Hl. assert (wf s) as Hwf by apply wf_run, wf_init.
  assert (ifAddrs_ s !! IfAddress.getIfIndex addr = None) as Ha.
  { apply not_elem_of_dom. rewrite (wf_dom s Hwf). by apply not_elem_of_dom. }
  unfold addIfAddress, deleteIfAddress. by rewrite Ha.
Qed.

(** C10.  After any sequence of calls, the interface indexes of the address
    table are those of the link table, which are those of the links handed
    to [addLink]; every stored address carries the index of a stored link.
    [addLink] with a new index stores the link with an empty address list,
    [addLink] with a known index answers -EEXIST and changes nothing, and
    [addIfAddress] and [deleteIfAddress] refuse an index that is not in the
    address table. *)
Theorem addr_table_tracks_links (ops : list Op) :
  let s := run ops init in
  dom (ifAddrs_ s) = dom (links_ s) ∧
  dom (links_ s) = list_to_set (addedLinks ops) ∧
  (∀ a, a ∈ getAllIfAddresses s →
     is_Some (links_ s !! IfAddress.getIfIndex a)) ∧
  (∀ link, links_ s !! Link.getIfIndex link = None →
     let s' := (addLink link s).1 in
     (addLink link s).2 = 0 ∧
     links_ s' = <[Link.getIfIndex link := link]> (links_ s) ∧
     ifAddrs_ s' = <[Link.getIfIndex link := []]> (ifAddrs_ s)) ∧
  (∀ link, is_Some (links_ s !! Link.getIfIndex link) →
     addLink link s = (s, - EEXIST)) ∧
  (∀ addr, ifAddrs_ s !! IfAddress.getIfIndex addr = None →
     addIfAddress addr s = (s, - ENXIO) ∧
     deleteIfAddress addr s = (s, - ENXIO)).
Proof.
  intros s. assert (wf s) as Hwf by apply wf_run, wf_init.
  split_and!.
  - apply (wf_dom s Hwf).
  - unfold s. rewrite dom_links_run by apply wf_init. simpl.
    rewrite dom_empty_L. set_solver.
  - intros a (k & l & Hl & Ha)%elem_of_getAllIfAddresses.
    destruct (wf_addr s Hwf k l Hl) as [Hall _].
    eapply Forall_forall in Hall as [-> _]; [|done].
    apply elem_of_dom. rewrite <- (wf_dom s Hwf). by apply elem_of_dom.
  - intros link Hl s'. unfold s'.
    destruct (addLink_cases link s Hwf) as [[_ Hs]|(-> & _ & _)]; [|done].
    rewrite Hl in Hs. by destruct Hs.
  - intros link Hs.
    destruct (addLink_cases link s Hwf) as [[-> _]|(_ & Hl & _)]; [done|].
    rewrite Hl in Hs. by destruct Hs.
  - intros addr Ha. unfold addIfAddress, deleteIfAddress. by rewrite Ha.
Qed.

End fake_claims.

(** ** NetlinkMessage *)

Section message_claims.
Context `{NetworkUtil}.
Import NetlinkMessage.

(** C8.  For each of the four receive callbacks: on a frame whose class does
    not override the callback, invoking it is a fatal check failure (the
    process aborts), whatever object is handed over and whatever the state
    of the frame. *)
Theorem rcvd_not_overridden_aborts {F : Type} (vt : Overrides F) :
  (override_rcvdRoute vt = None →
     ∀ route frame,
       rcvdRoute vt route frame = Abort "Must be implemented by subclass") ∧
  (override_rcvdLink vt = None →
     ∀ link frame,
       rcvdLink vt link frame = Abort "Must be implemented by subclass") ∧
  (override_rcvdNeighbor vt = None →
     ∀ neighbor frame,
       rcvdNeighbor vt neighbor frame =
       Abort "Must be implemented by subclass") ∧
  (override_rcvdIfAddress vt = None →
     ∀ ifAddr frame,
       rcvdIfAddress vt ifAddr frame =
       Abort "Must be implemented by subclass").
Proof.
  unfold rcvdRoute, rcvdLink, rcvdNeighbor, rcvdIfAddress.
  split_and!; intros -> ??; reflexivity.
Qed.

End message_claims.

(** ** The handler, over any protocol socket *)

Section handler.
Context `{NetworkUtil} {S : Type} `{!NetlinkProtocolSocket.t S}.
Import NetlinkSystemHandler.

Lemma collectRetvals_Value (retvals : list Z) :
  collectRetvals retvals = Value () ↔ Forall benign retvals.
Proof.
  unfold benign. induction retvals as [|r rs IH]; simpl.
  - split; [constructor | done].
  - rewrite Forall_cons. case_bool_decide as Hb.
    + split; [done | intros [? _]; lia].
    + rewrite IH. split; [intros ?; split; [lia | done] | by intros []].
Qed.

Lemma collectRetvals_Raised (retvals : list Z) :
  ¬ Forall benign retvals →
  ∃ ret, ret ∈ retvals ∧ ¬ benign ret ∧
    collectRetvals retvals =
    Raised (NlException "Address add/remove failed." (Z.abs ret)).
Proof.
  unfold benign. induction retvals as [|r rs IH]; simpl; intros Hn.
  - destruct Hn. constructor.
  - case_bool_decide as Hb.
    + exists r. split_and!; [left | lia | done].
    + destruct IH as (ret & Hin & Hbad & ->).
      * intros Hall. apply Hn. constructor; [lia | done].
      * exists ret. split_and!; [by right | done..].
Qed.

Lemma issue_app (r1 r2 : list Request) (s : S) :
  issue (r1 ++ r2) s =
  let '(s1, rets1) := issue r1 s in
  let '(s2, rets2) := issue r2 s1 in
  (s2, rets1 ++ rets2).
Proof.
  revert s. induction r1 as [|r r1 IH]; intros s; simpl.
  - by destruct (issue r2 s).
  - destruct (send r s) as [s1 ret]. rewrite IH.
    destruct (issue r1 s1) as [s2 rets1]. by destruct (issue r2 s2).
Qed.

Lemma keepAddr_true (ifIndex fam scope : Z) (a : IfAddress.t) :
  keepAddr ifIndex fam scope a = true ↔
  IfAddress.getIfIndex a = ifIndex ∧
  (fam = 0 ∨ IfAddress.getFamily a = fam) ∧
  IfAddress.getScope a = scope.
Proof.
  unfold keepAddr. repeat case_bool_decide; split; try done; lia.
Qed.

(** The loop of [semifuture_getIfaceAddresses], when the addresses it keeps
    have prefixes. *)
Lemma filterAddrs_Value (ifIndex fam scope : Z) (nlAddrs : list IfAddress.t) :
  Forall (λ a, is_Some (IfAddress.getPrefix a))
    (filter (λ a, keepAddr ifIndex fam scope a) nlAddrs) →
  filterAddrs ifIndex fam scope nlAddrs =
  Value (toIpPrefix <$>
           omap IfAddress.getPrefix
             (filter (λ a, keepAddr ifIndex fam scope a) nlAddrs)).
Proof.
  induction nlAddrs as [|a l IH]; simpl; [done|].
  rewrite filter_cons.
  destruct (keepAddr ifIndex fam scope a) eqn:Hk; simpl.
  - intros [[n Hn] Hall]%Forall_cons. rewrite Hn. by rewrite IH.
  - apply IH.
Qed.

Lemma getIfIndex_None (ifName : string) (s : S) :
  getIfIndex ifName s = None ↔
  ∀ link, link ∈ NetlinkProtocolSocket.getAllLinks s →
          Link.getLinkName link ≠ ifName.
Proof.
  unfold getIfIndex. rewrite fmap_None. split.
  - intros Hf link Hin%list_elem_of_In Heq.
    eapply find_none in Hf; [|done]. by apply bool_decide_eq_false in Hf.
  - intros Hall.
    destruct (find _ _) as [link|] eqn:Hf; [|done].
    apply find_some in Hf as [Hin%list_elem_of_In Heq].
    apply bool_decide_eq_true in Heq. by apply Hall in Hin.
Qed.



Lemma issue_length (reqs : list Request) (s : S) :
  length (issue reqs s).2 = length reqs.
Proof.
  revert s. induction reqs as [|r reqs IH]; intros s; simpl; [done|].
  destruct (send r s) as [s1 ret]. specialize (IH s1).
  destruct (issue reqs s1) as [s2 rets]. simpl in *. by rewrite IH.
Qed.

(** What an add or remove returns: the check of the status codes of the
    requests it issued, in the state they left. *)
Lemma addRemoveIfAddresses_known (isAdd : bool) (ifName : string)
    (addrs : list IpPrefix) (s : S) (ifIndex : Z) :
  getIfIndex ifName s = Some ifIndex →
  addRemoveIfAddresses isAdd ifName addrs s =
  ((issue (addRemoveRequest isAdd ifIndex <$> addrs) s).1,
   SemiFuture
     (collectRetvals (issue (addRemoveRequest isAdd ifIndex <$> addrs) s).2)).
Proof.
  intros Hi. unfold addRemoveIfAddresses. rewrite Hi.
  by destruct (issue _ s).
Qed.

(** What a sync returns once the interface is found and its current
    addresses are read: the check of the status codes of the requests it
    issued, in the state they left. *)
Lemma syncIfaceAddresses_known (ifName : string) (fam scope : Z)
    (newAddrs : list IpPrefix) (s : S) (ifIndex : Z)
    (oldAddrs : list IpPrefix) :
  getIfIndex ifName s = Some ifIndex →
  semifuture_getIfaceAddresses ifName fam scope s =
    SemiFuture (Value oldAddrs) →
  semifuture_syncIfaceAddresses ifName fam scope newAddrs s =
  ((issue (syncRequests ifIndex scope oldAddrs newAddrs) s).1,
   SemiFuture
     (collectRetvals
        (issue (syncRequests ifIndex scope oldAddrs newAddrs) s).2)).
Proof.
  intros Hi Hget. unfold semifuture_syncIfaceAddresses. rewrite Hi, Hget.
  by destruct (issue _ s).
Qed.

End handler.

(** ** The scripted socket *)

Section mock.
Context `{NetworkUtil}.
Import NetlinkSystemHandler.

(** Issuing requests to the scripted socket appends them to its log and
    yields the scripted answers. *)
Lemma mock_issue (reqs : list Request) (m : MockSocket.t) :
  issue reqs m =
  (MockSocket.mk (MockSocket.links m) (MockSocket.addrs m)
     (MockSocket.answer m) (MockSocket.log m ++ reqs),
   MockSocket.answer m <$> reqs).
Proof.
  revert m. induction reqs as [|r reqs IH]; intros m; simpl.
  - rewrite (right_id_L [] (++)). by destruct m.
  - assert (send r m = MockSocket.handle r m) as -> by by destruct r.
    unfold MockSocket.handle. rewrite IH. simpl.
    by rewrite <- (assoc_L (++)).
Qed.

End mock.

Section handler_claims.
Context `{NetworkUtil} {S : Type} `{!NetlinkProtocolSocket.t S}.
Import NetlinkSystemHandler.

(** What [semifuture_getIfaceAddresses] returns for a known interface. *)
Lemma getIfaceAddresses_kept (ifName : string) (fam scope : Z) (s : S)
    (ifIndex : Z) :
  getIfIndex ifName s = Some ifIndex →
  let kept :=
    filter (λ a, IfAddress.getIfIndex a = ifIndex ∧
                 (fam = 0 ∨ IfAddress.getFamily a = fam) ∧
                 IfAddress.getScope a = scope)
      (NetlinkProtocolSocket.getAllIfAddresses s) in
  Forall (λ a, is_Some (IfAddress.getPrefix a)) kept →
  semifuture_getIfaceAddresses ifName fam scope s =
  SemiFuture (Value (toIpPrefix <$> omap IfAddress.getPrefix kept)).
Proof.
  intros Hidx kept Hall.
  assert (kept = filter (λ a, keepAddr ifIndex fam scope a)
                   (NetlinkProtocolSocket.getAllIfAddresses s)) as Hkept.
  { apply list_filter_iff. intros a. rewrite Is_true_true.
    symmetry. apply keepAddr_true. }
  unfold semifuture_getIfaceAddresses. rewrite Hidx.
  rewrite filterAddrs_Value by by rewrite <- Hkept.
  by rewrite Hkept.
Qed.

(** C5.  For a known interface, [semifuture_getIfaceAddresses] returns the
    prefixes of exactly the addresses of that interface whose scope equals
    the scope argument and whose family equals the family argument unless
    that argument is 0; [semifuture_syncIfaceAddresses] takes this very list
    for the current addresses.  So an address of another scope is never
    returned, whatever the scope argument, while family 0 lets every family
    through. *)
Theorem getIfaceAddresses_scope_mandatory (ifName : string) (fam scope : Z)
    (s : S) (ifIndex : Z) :
  getIfIndex ifName s = Some ifIndex →
  let kept :=
    filter (λ a, IfAddress.getIfIndex a = ifIndex ∧
                 (fam = 0 ∨ IfAddress.getFamily a = fam) ∧
                 IfAddress.getScope a = scope)
      (NetlinkProtocolSocket.getAllIfAddresses s) in
  Forall (λ a, is_Some (IfAddress.getPrefix a)) kept →
  let addrs := toIpPrefix <$> omap IfAddress.getPrefix kept in
  semifuture_getIfaceAddresses ifName fam scope s = SemiFuture (Value addrs) ∧
  (∀ newAddrs,
     semifuture_syncIfaceAddresses ifName fam scope newAddrs s =
     let '(s', retvals) :=
       issue (syncRequests ifIndex scope addrs newAddrs) s in
     (s', SemiFuture (collectRetvals retvals))) ∧
  (∀ a, a ∈ kept → IfAddress.getScope a = scope) ∧
  (∀ a, a ∈ NetlinkProtocolSocket.getAllIfAddresses s →
        IfAddress.getScope a ≠ scope → a ∉ kept) ∧
  (fam = 0 →
   kept = filter (λ a, IfAddress.getIfIndex a = ifIndex ∧
                       IfAddress.getScope a = scope)
            (NetlinkProtocolSocket.getAllIfAddresses s)).
Proof.
  intros Hidx kept Hall addrs.
  pose proof (getIfaceAddresses_kept ifName fam scope s ifIndex Hidx Hall)
    as Hget.
  split_and!.
  - done.
  - intros newAddrs. unfold semifuture_syncIfaceAddresses.
    by rewrite Hidx, Hget.
  - intros a Ha. by apply list_elem_of_filter in Ha as [(_ & _ & ?) _].
  - intros a _ Hne Ha.
    by apply list_elem_of_filter in Ha as [(_ & _ & ?) _].
  - intros ->. apply list_filter_iff. intros a. tauto.
Qed.


End handler_claims.

(** ** getAllLinks *)

Section all_links.
Context `{NetworkUtil} {S : Type} `{!NetlinkProtocolSocket.t S}.
Import NetlinkSystemHandler.

Lemma emplace_union `{Countable K} {V} (k : K) (v : V) (m : gmap K V) :
  emplace k v m = m ∪ {[k := v]}.
Proof.
  unfold emplace. apply map_eq. intros i. rewrite lookup_union.
  destruct (m !! k) as [w|] eqn:Hk.
  - destruct (decide (i = k)) as [->|Hne].
    + by rewrite Hk, lookup_singleton_eq.
    + rewrite lookup_singleton_ne by done. by destruct (m !! i).
  - destruct (decide (i = k)) as [->|Hne].
    + by rewrite lookup_insert_eq, Hk, lookup_singleton_eq.
    + rewrite lookup_insert_ne, lookup_singleton_ne by done.
      by destruct (m !! i).
Qed.

(** The first loop: the first link of an index wins. *)
Lemma createLinks_list_to_map (nlLinks : list Link.t) :
  createLinks nlLinks = list_to_map (bareLink <$> nlLinks).
Proof.
  unfold createLinks.
  enough (∀ acc : gmap Z ThriftLink.t,
            foldl (λ links nlLink, emplace (bareLink nlLink).1
                                     (bareLink nlLink).2 links) acc nlLinks
            = acc ∪ list_to_map (bareLink <$> nlLinks)) as Hgen.
  { rewrite (Hgen ∅). by rewrite (left_id_L ∅ (∪)). }
  induction nlLinks as [|l ls IH]; intros acc; simpl.
  - by rewrite (right_id_L ∅ (∪)).
  - rewrite IH, emplace_union, insert_union_singleton_l.
    by rewrite (assoc_L (∪)).
Qed.

(** The second loop, when every address has a prefix and the index of a
    link in the map. *)
Lemma addAddresses_Value (nlAddrs : list IfAddress.t)
    (links : gmap Z ThriftLink.t) :
  Forall (λ a, is_Some (IfAddress.getPrefix a) ∧
               is_Some (links !! IfAddress.getIfIndex a)) nlAddrs →
  addAddresses nlAddrs links =
  Value (map_imap (λ k link, Some (withNetworks (networksOf k nlAddrs) link))
           links).
Proof.
  revert links. induction nlAddrs as [|a l IH]; intros links Hall; simpl.
  - f_equal. apply map_eq. intros k. rewrite map_lookup_imap.
    destruct (links !! k) as [[]|]; simpl; [|done].
    unfold withNetworks, networksOf. simpl. by rewrite (right_id_L [] (++)).
  - apply Forall_cons in Hall as [[[n Hn] [link Hlink]] Hall].
    rewrite Hlink, Hn, IH.
    + f_equal. apply map_eq. intros k. rewrite !map_lookup_imap.
      unfold networksOf. rewrite filter_cons.
      destruct (decide (IfAddress.getIfIndex a = k)) as [<-|Hne].
      * rewrite lookup_insert_eq, Hlink. simpl. rewrite Hn.
        unfold withNetworks, addNetwork. simpl. do 2 f_equal.
        by rewrite <- (assoc_L (++)).
      * by rewrite lookup_insert_ne.
    + eapply Forall_impl; [exact Hall|]. intros a' [? Hs]. split; [done|].
      rewrite lookup_insert. by case_decide.
Qed.

Lemma map_imap_list_to_map {A B} (f : Z → A → B) (l : list (Z * A)) :
  map_imap (λ k x, Some (f k x)) (list_to_map l : gmap Z A) =
  list_to_map ((λ kx, (kx.1, f kx.1 kx.2)) <$> l).
Proof.
  induction l as [|[k x] l IH]; simpl.
  - apply map_imap_empty.
  - by rewrite (map_imap_insert_Some _ _ _ _ (f k x)), IH.
Qed.

(** C4.  When the links the kernel reports have distinct indexes and every
    address it reports has a prefix and the index of a reported link,
    [semifuture_getAllLinks] returns, in some order, one entry per link:
    name, index and up-flag of the link, with the prefixes of exactly the
    addresses whose index is that of the link.  (For links eth0, index 1,
    and lo, index 2, and the one address 10.0.0.1/24 on index 1 these are
    two entries, the first with the single network 10.0.0.1/24 and the
    second with none.) *)
Theorem getAllLinks_with_networks (s : S) :
  let nlLinks := NetlinkProtocolSocket.getAllLinks s in
  let nlAddrs := NetlinkProtocolSocket.getAllIfAddresses s in
  NoDup (Link.getIfIndex <$> nlLinks) →
  Forall (λ a, is_Some (IfAddress.getPrefix a) ∧
               IfAddress.getIfIndex a ∈ Link.getIfIndex <$> nlLinks)
    nlAddrs →
  ∃ result,
    semifuture_getAllLinks s = SemiFuture (Value result) ∧
    result ≡ₚ linkWithNetworks nlAddrs <$> nlLinks.
Proof.
  intros nlLinks nlAddrs Hnd Hall. unfold semifuture_getAllLinks.
  fold nlLinks nlAddrs. rewrite createLinks_list_to_map.
  rewrite addAddresses_Value.
  - eexists. split; [done|].
    rewrite map_imap_list_to_map, <- list_fmap_compose.
    rewrite map_to_list_to_map.
    + rewrite <- list_fmap_compose. apply reflexive_eq.
      apply list_fmap_ext. intros _ l _. unfold linkWithNetworks. simpl.
      unfold withNetworks, networksOf. done.
    + by rewrite <- list_fmap_compose.
  - eapply Forall_impl; [exact Hall|]. intros a [Hp Hin]. split; [done|].
    apply list_elem_of_fmap in Hin as (l & -> & Hin).
    apply not_eq_None_Some. rewrite <- not_elem_of_list_to_map.
    intros Hnot. apply Hnot. rewrite <- list_fmap_compose.
    apply list_elem_of_fmap. by exists l.
Qed.

End all_links.

(** ** The handler on the in-memory socket *)

Section handler_on_fake.
Context `{NetworkUtil}.
Import FakeNetlinkProtocolSocket NetlinkSystemHandler.
Implicit Types (s : FakeNetlinkProtocolSocket.t) (a x : IfAddress.t).

Lemma filter_none (P : IfAddress.t → Prop) `{!∀ a, Decision (P a)}
    (l : list IfAddress.t) :
  Forall (λ a, ¬ P a) l → filter P l = [].
Proof.
  induction 1 as [|a l Ha _ IH]; [done|]. by rewrite filter_cons_False.
Qed.

Lemma filter_join_absent (l : list (Z * list IfAddress.t)) (i : Z) :
  Forall (λ kl, Forall (λ a, IfAddress.getIfIndex a = kl.1) kl.2) l →
  i ∉ l.*1 →
  filter (λ a, IfAddress.getIfIndex a = i) (mjoin l.*2) = [].
Proof.
  induction 1 as [|[k ks] l Hk _ IH]; csimpl; [done|].
  rewrite not_elem_of_cons. intros [Hne Hi].
  rewrite filter_app, IH by done. rewrite filter_none; [done|].
  eapply Forall_impl; [exact Hk|]. simpl. intros a -> ?. by apply Hne.
Qed.

Lemma filter_join_present (l : list (Z * list IfAddress.t)) (i : Z)
    (addrs : list IfAddress.t) :
  Forall (λ kl, Forall (λ a, IfAddress.getIfIndex a = kl.1) kl.2) l →
  NoDup l.*1 →
  (i, addrs) ∈ l →
  filter (λ a, IfAddress.getIfIndex a = i) (mjoin l.*2) = addrs.
Proof.
  induction 1 as [|[k ks] l Hk Hl IH]; csimpl; intros Hnd Hin.
  - by apply elem_of_nil in Hin.
  - apply NoDup_cons in Hnd as [Hk' Hnd]. rewrite filter_app.
    apply elem_of_cons in Hin as [[= <- <-]|Hin].
    + rewrite filter_join_absent by done. rewrite filter_all by done.
      by rewrite (right_id_L [] (++)).
    + rewrite IH by done. rewrite filter_none; [done|].
      eapply Forall_impl; [exact Hk|]. simpl. intros a -> ->.
      apply Hk'. apply list_elem_of_fmap. by exists (i, addrs).
Qed.

(** The addresses the socket reports for an index are the list it stores
    for that index. *)
Lemma getAllIfAddresses_of_index s (i : Z) :
  wf s →
  filter (λ a, IfAddress.getIfIndex a = i) (getAllIfAddresses s) =
  addrsOf i s.
Proof.
  intros Hwf. unfold getAllIfAddresses, addrsOf.
  assert (Forall (λ kl, Forall (λ a, IfAddress.getIfIndex a = kl.1) kl.2)
            (map_to_list (ifAddrs_ s))) as Hall.
  { apply Forall_forall. intros [k l] Hkl%elem_of_map_to_list. simpl.
    destruct (wf_addr s Hwf k l Hkl) as [Hf _].
    eapply Forall_impl; [exact Hf|]. by intros a [? _]. }
  destruct (ifAddrs_ s !! i) as [l|] eqn:Hi; simpl.
  - apply filter_join_present;
      [done | apply NoDup_fst_map_to_list | by apply elem_of_map_to_list].
  - apply filter_join_absent; [done|].
    intros ([k l] & -> & Hkl%elem_of_map_to_list)%list_elem_of_fmap.
    simpl in *. congruence.
Qed.

Lemma elem_of_getAllLinks s (link : Link.t) :
  link ∈ getAllLinks s ↔ ∃ k, links_ s !! k = Some link.
Proof.
  unfold getAllLinks. rewrite list_elem_of_fmap. split.
  - intros ([k l] & -> & Hl%elem_of_map_to_list). eauto.
  - intros (k & Hl). exists (k, link).
    split; [done | by apply elem_of_map_to_list].
Qed.

(** An interface the handler finds by name has an address list. *)
Lemma getIfIndex_known (ifName : string) s (i : Z) :
  wf s →
  getIfIndex ifName s = Some i →
  is_Some (links_ s !! i) ∧ is_Some (ifAddrs_ s !! i).
Proof.
  intros Hwf. unfold getIfIndex. rewrite fmap_Some.
  intros (link & Hf & ->). apply find_some in Hf as [Hin%list_elem_of_In _].
  apply elem_of_getAllLinks in Hin as [k Hk].
  rewrite (wf_link s Hwf k link Hk).
  split; [by eauto|]. apply elem_of_dom. rewrite (wf_dom s Hwf).
  apply elem_of_dom. eauto.
Qed.

(** What the handler reads for an interface under a family and a scope. *)
Lemma getIfaceAddresses_fake (ifName : string) (fam scope : Z) s (i : Z) :
  wf s →
  getIfIndex ifName s = Some i →
  semifuture_getIfaceAddresses ifName fam scope s =
  SemiFuture
    (Value
       (toIpPrefix <$>
          omap IfAddress.getPrefix
            (filter (λ a, (fam = 0 ∨ IfAddress.getFamily a = fam) ∧
                          IfAddress.getScope a = scope)
               (addrsOf i s)))).
Proof.
  intros Hwf Hi.
  rewrite <- (getAllIfAddresses_of_index s i Hwf), list_filter_filter.
  destruct (wf_addrsOf s i Hwf) as [Hall _].
  rewrite <- (getAllIfAddresses_of_index s i Hwf) in Hall.
  rewrite (getIfaceAddresses_kept ifName fam scope s i Hi).
  - do 4 f_equal. apply list_filter_iff. intros a. tauto.
  - apply Forall_forall. intros a Ha.
    apply list_elem_of_filter in Ha as [(Hidx & _) Ha].
    eapply Forall_forall in Hall as [_ ?]; [done|].
    by apply list_elem_of_filter.
Qed.

End handler_on_fake.

(** ** What the in-memory socket reports is well formed *)

Section fake_reports.
Context `{NetworkUtil}.
Import FakeNetlinkProtocolSocket NetlinkSystemHandler.

(** The links reported have distinct indexes, and every address reported
    has a prefix and the index of a reported link: the conditions under
    which [semifuture_getAllLinks] answers hold after every run. *)
Lemma fake_reports_wf (ops : list Op) :
  let s := run ops init in
  NoDup (Link.getIfIndex <$> NetlinkProtocolSocket.getAllLinks s) ∧
  Forall (λ a, is_Some (IfAddress.getPrefix a) ∧
               IfAddress.getIfIndex a ∈
                 Link.getIfIndex <$> NetlinkProtocolSocket.getAllLinks s)
    (NetlinkProtocolSocket.getAllIfAddresses s).
Proof.
  intros s. assert (wf s) as Hwf by apply wf_run, wf_init. simpl. split.
  - unfold getAllLinks. rewrite <- list_fmap_compose.
    erewrite list_fmap_ext; [apply (NoDup_fst_map_to_list (links_ s))|].
    intros i [k link] Hkl. apply list_elem_of_lookup_2 in Hkl.
    apply elem_of_map_to_list in Hkl. simpl. by apply (wf_link s Hwf).
  - apply Forall_forall.
    intros a (k & l & Hl & Ha)%elem_of_getAllIfAddresses.
    destruct (wf_addr s Hwf k l Hl) as [Hall _].
    eapply Forall_forall in Hall as [Hk Hp]; [|done]. split; [done|].
    assert (is_Some (links_ s !! IfAddress.getIfIndex a)) as [link Hlink].
    { apply elem_of_dom. rewrite <- (wf_dom s Hwf), Hk.
      apply elem_of_dom. eauto. }
    apply list_elem_of_fmap. exists link.
    split; [by rewrite (wf_link s Hwf _ _ Hlink)|].
    apply elem_of_getAllLinks. eauto.
Qed.

End fake_reports.

(** ** Batches of address requests on the in-memory socket *)

Section batches.
Context `{NetworkUtil}.
Import FakeNetlinkProtocolSocket NetlinkSystemHandler.
Implicit Types (s : FakeNetlinkProtocolSocket.t) (a x : IfAddress.t).

Lemma addrsOf_set s (i : Z) (l : list IfAddress.t) :
  addrsOf i (set_ifAddrs (insert i l) s) = l.
Proof. unfold addrsOf. simpl. by rewrite lookup_insert_eq. Qed.

Lemma benign_codes :
  benign 0 ∧ benign (- EEXIST) ∧ benign (- EADDRNOTAVAIL) ∧ ¬ benign (- ENXIO)
  ∧ ¬ benign ESRCH.
Proof. unfold benign, EEXIST, EADDRNOTAVAIL, ENXIO, ESRCH. lia. Qed.

Lemma add_step a s (i : Z) :
  wf s → is_Some (ifAddrs_ s !! i) → forIface i a →
  ∃ s' ret,
    addIfAddress a s = (s', ret) ∧
    wf s' ∧ links_ s' = links_ s ∧ is_Some (ifAddrs_ s' !! i) ∧
    ((ret = - EEXIST ∧ s' = s ∧
      IfAddress.getPrefix a ∈ IfAddress.getPrefix <$> addrsOf i s) ∨
     (ret = 0 ∧ addrsOf i s' = addrsOf i s ++ [a] ∧
      IfAddress.getPrefix a ∉ IfAddress.getPrefix <$> addrsOf i s)).
Proof.
  intros Hwf Hi [<- Hp]. pose proof (wf_addIfAddress a s Hwf) as Hwf'.
  destruct (addIfAddress_cases a s)
    as [[E [Hn|Hn]]|[[E [_ Hin]]|(E & _ & _ & Hnotin)]];
    rewrite E in *; simpl in *.
  - rewrite Hn in Hi. by destruct Hi.
  - rewrite Hn in Hp. by destruct Hp.
  - eexists _, _. split; [done|]. split_and!; [done..|]. by left.
  - eexists _, _. split; [done|]. split_and!; [done| done | |].
    + cbn. rewrite lookup_insert_eq. eauto.
    + right. by rewrite addrsOf_set.
Qed.

Lemma delete_step a s (i : Z) :
  wf s → is_Some (ifAddrs_ s !! i) → forIface i a →
  ∃ s' ret,
    deleteIfAddress a s = (s', ret) ∧
    wf s' ∧ links_ s' = links_ s ∧ is_Some (ifAddrs_ s' !! i) ∧
    ((ret = - EADDRNOTAVAIL ∧ s' = s ∧
      IfAddress.getPrefix a ∉ IfAddress.getPrefix <$> addrsOf i s) ∨
     (ret = 0 ∧
      addrsOf i s' =
        filter (λ x, IfAddress.getPrefix x ≠ IfAddress.getPrefix a)
          (addrsOf i s) ∧
      IfAddress.getPrefix a ∈ IfAddress.getPrefix <$> addrsOf i s)).
Proof.
  intros Hwf Hi [<- Hp]. pose proof (wf_deleteIfAddress a s Hwf) as Hwf'.
  destruct (wf_addrsOf s (IfAddress.getIfIndex a) Hwf) as [_ Hnd].
  destruct (deleteIfAddress_cases a s Hnd)
    as [[E [Hn|Hn]]|[[E [_ Hin]]|(E & _ & _ & Hnotin)]];
    rewrite E in *; simpl in *.
  - rewrite Hn in Hi. by destruct Hi.
  - rewrite Hn in Hp. by destruct Hp.
  - eexists _, _. split; [done|]. split_and!; [done..|]. by left.
  - eexists _, _. split; [done|]. split_and!; [done| done | |].
    + cbn. rewrite lookup_insert_eq. eauto.
    + right. by rewrite addrsOf_set.
Qed.

(** A batch of additions: nothing is lost, what is new comes from the
    batch, and every prefix of the batch is there afterwards. *)
Lemma issue_adds (adds : list IfAddress.t) s (i : Z) :
  wf s → is_Some (ifAddrs_ s !! i) → Forall (forIface i) adds →
  ∃ s' rets,
    issue (AddIfAddress <$> adds) s = (s', rets) ∧
    wf s' ∧ links_ s' = links_ s ∧ is_Some (ifAddrs_ s' !! i) ∧
    Forall benign rets ∧
    (∀ x, x ∈ addrsOf i s → x ∈ addrsOf i s') ∧
    (∀ x, x ∈ addrsOf i s' → x ∈ addrsOf i s ∨ x ∈ adds) ∧
    (∀ a, a ∈ adds →
       IfAddress.getPrefix a ∈ IfAddress.getPrefix <$> addrsOf i s').
Proof.
  intros Hwf Hi Hall. revert s Hwf Hi.
  induction Hall as [|a adds Ha _ IH]; intros s Hwf Hi; csimpl.
  - eexists _, _. split; [done|]. split_and!; try done.
    + auto.
    + intros a Ha. by apply elem_of_nil in Ha.
  - destruct (add_step a s i Hwf Hi Ha)
      as (s1 & ret & E & Hwf1 & Hl1 & Hi1 & Hcase).
    change (NetlinkProtocolSocket.addIfAddress a s) with (addIfAddress a s).
    rewrite E.
    destruct (IH s1 Hwf1 Hi1)
      as (s2 & rets & E2 & Hwf2 & Hl2 & Hi2 & Hb & Hkeep & Hnew & Hpre).
    rewrite E2. eexists _, _. split; [done|].
    assert (∀ x, x ∈ addrsOf i s → x ∈ addrsOf i s1) as Hmono.
    { destruct Hcase as [(_ & -> & _)|(_ & -> & _)]; [done|].
      intros x Hx. apply elem_of_app. by left. }
    assert (∀ x, x ∈ addrsOf i s1 → x ∈ addrsOf i s ∨ x = a) as Hfrom.
    { destruct Hcase as [(_ & -> & _)|(_ & -> & _)]; [by left|].
      intros x [Hx | ->%list_elem_of_singleton]%elem_of_app; auto. }
    assert (IfAddress.getPrefix a ∈ IfAddress.getPrefix <$> addrsOf i s1)
      as Hin1.
    { destruct Hcase as [(_ & -> & ?)|(_ & -> & _)]; [done|].
      rewrite fmap_app. apply elem_of_app. right. by left. }
    split_and!.
    + done.
    + congruence.
    + done.
    + constructor; [|done].
      destruct Hcase as [(-> & _)|(-> & _)]; apply benign_codes.
    + auto.
    + intros x Hx. destruct (Hnew x Hx) as [Hx1|Hx1]; [|right; by right].
      destruct (Hfrom x Hx1) as [Hx0| ->]; [by left | right; by left].
    + intros a' [->|Ha']%elem_of_cons; [|by apply Hpre].
      apply list_elem_of_fmap in Hin1 as (y & Hy & Hin1).
      rewrite Hy. apply list_elem_of_fmap_2. by apply Hkeep.
Qed.

(** A batch of deletions removes exactly the addresses whose prefix is
    asked for. *)
Lemma issue_deletes (dels : list IfAddress.t) s (i : Z) :
  wf s → is_Some (ifAddrs_ s !! i) → Forall (forIface i) dels →
  ∃ s' rets,
    issue (DeleteIfAddress <$> dels) s = (s', rets) ∧
    wf s' ∧ links_ s' = links_ s ∧ is_Some (ifAddrs_ s' !! i) ∧
    Forall benign rets ∧
    (∀ x, x ∈ addrsOf i s' ↔
          x ∈ addrsOf i s ∧
          IfAddress.getPrefix x ∉ IfAddress.getPrefix <$> dels).
Proof.
  intros Hwf Hi Hall. revert s Hwf Hi.
  induction Hall as [|a dels Ha _ IH]; intros s Hwf Hi; csimpl.
  - eexists _, _. split; [done|]. split_and!; try done.
    intros x. split; [|by intros []]. intros Hx. split; [done|].
    apply not_elem_of_nil.
  - destruct (delete_step a s i Hwf Hi Ha)
      as (s1 & ret & E & Hwf1 & Hl1 & Hi1 & Hcase).
    change (NetlinkProtocolSocket.deleteIfAddress a s)
      with (deleteIfAddress a s).
    rewrite E.
    destruct (IH s1 Hwf1 Hi1)
      as (s2 & rets & E2 & Hwf2 & Hl2 & Hi2 & Hb & Hiff).
    rewrite E2. eexists _, _. split; [done|].
    assert (∀ x, x ∈ addrsOf i s1 ↔
                 x ∈ addrsOf i s ∧
                 IfAddress.getPrefix x ≠ IfAddress.getPrefix a) as Hone.
    { destruct Hcase as [(_ & -> & Hnot)|(_ & -> & _)].
      - intros x. split; [|by intros []]. intros Hx. split; [done|].
        intros Heq. apply Hnot. rewrite <- Heq. by apply list_elem_of_fmap_2.
      - intros x. rewrite list_elem_of_filter. tauto. }
    split_and!.
    + done.
    + congruence.
    + done.
    + constructor; [|done].
      destruct Hcase as [(-> & _)|(-> & _)]; apply benign_codes.
    + intros x. rewrite Hiff, Hone, not_elem_of_cons. tauto.
Qed.

(** Additions of prefixes that are all there already, and deletions of
    prefixes none of which is there, leave the socket as it is. *)
Lemma issue_adds_present (adds : list IfAddress.t) s (i : Z) :
  wf s → is_Some (ifAddrs_ s !! i) → Forall (forIface i) adds →
  (∀ a, a ∈ adds →
     IfAddress.getPrefix a ∈ IfAddress.getPrefix <$> addrsOf i s) →
  issue (AddIfAddress <$> adds) s = (s, (λ _, - EEXIST) <$> adds).
Proof.
  intros Hwf Hi Hall Hin.
  induction Hall as [|a adds Ha _ IH]; csimpl; [done|].
  change (NetlinkProtocolSocket.addIfAddress a s) with (addIfAddress a s).
  destruct (add_step a s i Hwf Hi Ha)
    as (s1 & ret & E & _ & _ & _ & [(-> & -> & _)|(_ & _ & Hnot)]).
  - rewrite E, IH; [done|]. intros a' Ha'. apply Hin. by right.
  - destruct Hnot. apply Hin. by left.
Qed.

Lemma issue_deletes_absent (dels : list IfAddress.t) s (i : Z) :
  wf s → is_Some (ifAddrs_ s !! i) → Forall (forIface i) dels →
  (∀ a, a ∈ dels →
     IfAddress.getPrefix a ∉ IfAddress.getPrefix <$> addrsOf i s) →
  issue (DeleteIfAddress <$> dels) s = (s, (λ _, - EADDRNOTAVAIL) <$> dels).
Proof.
  intros Hwf Hi Hall Hin.
  induction Hall as [|a dels Ha _ IH]; csimpl; [done|].
  change (NetlinkProtocolSocket.deleteIfAddress a s)
    with (deleteIfAddress a s).
  destruct (delete_step a s i Hwf Hi Ha)
    as (s1 & ret & E & _ & _ & _ & [(-> & -> & _)|(_ & _ & Hyes)]).
  - rewrite E, IH; [done|]. intros a' Ha'. apply Hin. by right.
  - destruct (Hin a); [by left | done].
Qed.

End batches.

(** ** add, remove and sync on the in-memory socket *)

Section address_claims.
Context `{NetworkUtil}.
Import FakeNetlinkProtocolSocket NetlinkSystemHandler.
Implicit Types (s : FakeNetlinkProtocolSocket.t) (a x : IfAddress.t).

Lemma addRemoveAddress_forIface (i : Z) (p : IpPrefix) :
  forIface i (addRemoveAddress i p) ∧
  IfAddress.getPrefix (addRemoveAddress i p) = Some (toIPNetwork p).
Proof. unfold forIface. simpl. eauto. Qed.

Lemma syncAddress_forIface (i scope : Z) (p : IpPrefix) :
  forIface i (syncAddress i scope p) ∧
  IfAddress.getPrefix (syncAddress i scope p) = Some (toIPNetwork p).
Proof. unfold forIface. simpl. eauto. Qed.

Lemma getIfIndex_links (ifName : string) s s' :
  links_ s' = links_ s → getIfIndex ifName s' = getIfIndex ifName s.
Proof.
  intros E. unfold getIfIndex. simpl. unfold getAllLinks. by rewrite E.
Qed.

(** Any batch of additions, and any batch of removals, for a known interface
    succeeds on this socket. *)
Lemma addRemove_succeeds (isAdd : bool) (ifName : string)
    (addrs : list IpPrefix) s (i : Z) :
  wf s → getIfIndex ifName s = Some i →
  ∃ s', addRemoveIfAddresses isAdd ifName addrs s =
        (s', SemiFuture (Value ())).
Proof.
  intros Hwf Hi. destruct (getIfIndex_known ifName s i Hwf Hi) as [_ Ha].
  unfold addRemoveIfAddresses. rewrite Hi.
  assert (Forall (forIface i) (addRemoveAddress i <$> addrs)) as Hall.
  { apply Forall_fmap, Forall_forall. intros p _.
    apply addRemoveAddress_forIface. }
  destruct isAdd; unfold addRemoveRequest.
  - destruct (issue_adds _ s i Hwf Ha Hall) as (s' & rets & E & _ & _ & _ & Hb & _).
    rewrite <- list_fmap_compose in E. unfold compose in E. rewrite E.
    apply collectRetvals_Value in Hb. rewrite Hb. eauto.
  - destruct (issue_deletes _ s i Hwf Ha Hall) as (s' & rets & E & _ & _ & _ & Hb & _).
    rewrite <- list_fmap_compose in E. unfold compose in E. rewrite E.
    apply collectRetvals_Value in Hb. rewrite Hb. eauto.
Qed.

(** C2.  On every protocol socket and for a known interface, an add or
    remove batch hands the socket one request per address of the batch, in
    order, and its outcome is decided by the status codes that come back:
    it completes with success exactly when every code is, in absolute value,
    0, EEXIST or EADDRNOTAVAIL, and otherwise fails with an [NlException]
    carrying a code outside these; the socket is left in the state the
    requests put it in.  After any sequence of calls on the in-memory
    socket: adding addresses that all exist already gets -EEXIST for each
    and completes with success, the socket unchanged; removing addresses
    none of which exists gets -EADDRNOTAVAIL for each and completes with
    success, the socket unchanged; any batch of additions or removals
    completes with success. *)
Theorem addRemove_idempotent (ops : list Op) (ifName : string) (ifIndex : Z)
    (addrs : list IpPrefix) :
  (∀ (S : Type) (sock : NetlinkProtocolSocket.t S) (s : S) (isAdd : bool),
     getIfIndex ifName s = Some ifIndex →
     let reqs := addRemoveRequest isAdd ifIndex <$> addrs in
     let retvals := (issue reqs s).2 in
     reqs =
       (λ p, (if isAdd then AddIfAddress else DeleteIfAddress)
               (addRemoveAddress ifIndex p)) <$> addrs ∧
     (∀ p, IfAddress.getIfIndex (addRemoveAddress ifIndex p) = ifIndex ∧
           IfAddress.getPrefix (addRemoveAddress ifIndex p) =
             Some (toIPNetwork p)) ∧
     length retvals = length addrs ∧
     (addRemoveIfAddresses isAdd ifName addrs s).1 = (issue reqs s).1 ∧
     ((addRemoveIfAddresses isAdd ifName addrs s).2 = SemiFuture (Value ())
      ↔ Forall benign retvals) ∧
     (¬ Forall benign retvals →
      ∃ ret, ret ∈ retvals ∧ ¬ benign ret ∧
        (addRemoveIfAddresses isAdd ifName addrs s).2 =
        SemiFuture
          (Raised
             (NlException "Address add/remove failed." (Z.abs ret))))) ∧
  (∀ (m : MockSocket.t) (isAdd : bool),
     getIfIndex ifName m = Some ifIndex →
     let reqs := addRemoveRequest isAdd ifIndex <$> addrs in
     MockSocket.log (addRemoveIfAddresses isAdd ifName addrs m).1 =
       MockSocket.log m ++ reqs ∧
     (addRemoveIfAddresses isAdd ifName addrs m).2 =
       SemiFuture (collectRetvals (MockSocket.answer m <$> reqs))) ∧
  (
  let s := run ops init in
  getIfIndex ifName s = Some ifIndex →
  ((∀ p, p ∈ addrs →
      Some (toIPNetwork p) ∈ IfAddress.getPrefix <$> addrsOf ifIndex s) →
   issue (addRemoveRequest true ifIndex <$> addrs) s =
     (s, (λ _, - EEXIST) <$> addrs) ∧
   semifuture_addIfaceAddresses ifName addrs s =
     (s, SemiFuture (Value ()))) ∧
  ((∀ p, p ∈ addrs →
      Some (toIPNetwork p) ∉ IfAddress.getPrefix <$> addrsOf ifIndex s) →
   issue (addRemoveRequest false ifIndex <$> addrs) s =
     (s, (λ _, - EADDRNOTAVAIL) <$> addrs) ∧
   semifuture_removeIfaceAddresses ifName addrs s =
     (s, SemiFuture (Value ()))) ∧
  (∃ s', semifuture_addIfaceAddresses ifName addrs s =
         (s', SemiFuture (Value ()))) ∧
  (∃ s', semifuture_removeIfaceAddresses ifName addrs s =
         (s', SemiFuture (Value ()))) ∧
  (∀ retvals, collectRetvals retvals = Value () ↔ Forall benign retvals) ∧
  (∀ retvals, ¬ Forall benign retvals →
     ∃ ret, ret ∈ retvals ∧ ¬ benign ret ∧
       collectRetvals retvals =
       Raised (NlException "Address add/remove failed." (Z.abs ret))) ∧
  benign (- EEXIST) ∧ benign (- EADDRNOTAVAIL)).
Proof.
  split_and!.
  - intros S sock s isAdd Hi reqs retvals.
    rewrite (addRemoveIfAddresses_known isAdd ifName addrs s ifIndex Hi).
    fold reqs retvals. simpl. split_and!.
    + unfold reqs. apply list_fmap_ext. intros _ p _.
      unfold addRemoveRequest. by destruct isAdd.
    + intros p. by split.
    + unfold retvals, reqs. by rewrite issue_length, length_fmap.
    + done.
    + rewrite <- collectRetvals_Value. split; [by intros [= ->] | by intros ->].
    + intros Hbad.
      destruct (collectRetvals_Raised retvals Hbad) as (ret & ? & ? & ->).
      eauto.
  - intros m isAdd Hi reqs.
    rewrite (addRemoveIfAddresses_known isAdd ifName addrs m ifIndex Hi).
    fold reqs. by rewrite mock_issue.
  - { intros s Hi. assert (wf s) as Hwf by apply wf_run, wf_init.
    destruct (getIfIndex_known ifName s ifIndex Hwf Hi) as [_ Ha].
    assert (Forall (forIface ifIndex) (addRemoveAddress ifIndex <$> addrs))
      as Hall.
    { apply Forall_fmap, Forall_forall. intros p _.
      apply addRemoveAddress_forIface. }
    split_and!.
    - intros Hin.
      assert (issue (addRemoveRequest true ifIndex <$> addrs) s
              = (s, (λ _, - EEXIST) <$> addrs)) as E.
      { pose proof (issue_adds_present _ s ifIndex Hwf Ha Hall) as E.
        rewrite <- !list_fmap_compose in E. apply E.
        intros a (p & -> & Hp)%list_elem_of_fmap. by apply Hin. }
      split; [done|].
      unfold semifuture_addIfaceAddresses, addRemoveIfAddresses.
      rewrite Hi, E. do 2 f_equal. apply collectRetvals_Value.
      apply Forall_fmap, Forall_forall. intros p _. apply benign_codes.
    - intros Hin.
      assert (issue (addRemoveRequest false ifIndex <$> addrs) s
              = (s, (λ _, - EADDRNOTAVAIL) <$> addrs)) as E.
      { pose proof (issue_deletes_absent _ s ifIndex Hwf Ha Hall) as E.
        rewrite <- !list_fmap_compose in E. apply E.
        intros a (p & -> & Hp)%list_elem_of_fmap. by apply Hin. }
      split; [done|].
      unfold semifuture_removeIfaceAddresses, addRemoveIfAddresses.
      rewrite Hi, E. do 2 f_equal. apply collectRetvals_Value.
      apply Forall_fmap, Forall_forall. intros p _. apply benign_codes.
    - by apply (addRemove_succeeds true ifName addrs s ifIndex).
    - by apply (addRemove_succeeds false ifName addrs s ifIndex).
    - apply collectRetvals_Value.
    - apply collectRetvals_Raised.
    - apply benign_codes.
    - apply benign_codes. }
Qed.

Lemma elem_of_kept_prefixes (P : IfAddress.t → Prop) `{!∀ a, Decision (P a)}
    (l : list IfAddress.t) (p : IpPrefix) :
  p ∈ toIpPrefix <$> omap IfAddress.getPrefix (filter P l) ↔
  ∃ x n, x ∈ l ∧ P x ∧ IfAddress.getPrefix x = Some n ∧ p = toIpPrefix n.
Proof.
  rewrite list_elem_of_fmap. split.
  - intros (n & -> & (x & Hx & Hn)%list_elem_of_omap).
    apply list_elem_of_filter in Hx as [HP Hx]. eauto 10.
  - intros (x & n & Hx & HP & Hn & ->). exists n. split; [done|].
    apply list_elem_of_omap. exists x. split; [|done].
    by apply list_elem_of_filter.
Qed.


Lemma NoDup_fmap_eq {A B} (f : A → B) (l : list A) (x y : A) :
  NoDup (f <$> l) → x ∈ l → y ∈ l → f x = f y → x = y.
Proof.
  induction l as [|a l IH]; intros Hnd Hx Hy Heq;
    [by apply elem_of_nil in Hx|].
  rewrite fmap_cons in Hnd. apply NoDup_cons in Hnd as [Ha Hnd].
  apply elem_of_cons in Hx as [->|Hx]; apply elem_of_cons in Hy as [->|Hy].
  - done.
  - destruct Ha. rewrite Heq. by apply list_elem_of_fmap_2.
  - destruct Ha. rewrite <- Heq. by apply list_elem_of_fmap_2.
  - by apply IH.
Qed.


End address_claims.

(** ** Worked examples *)

Section examples.
Import Example FakeNetlinkProtocolSocket NetlinkSystemHandler.





Lemma addRemove_idempotent_witness :
  semifuture_addIfaceAddresses "eth0" [net_10_0_0_1] kernel1 =
    (kernel1, SemiFuture (Value ())) ∧
  semifuture_removeIfaceAddresses "eth0" [net_192_168_1_1] kernel1 =
    (kernel1, SemiFuture (Value ())) ∧
  (semifuture_addIfaceAddresses "eth0" [net_192_168_1_1] refusing).2 =
    SemiFuture (Raised (NlException "Address add/remove failed." ENXIO)) ∧
  MockSocket.log
    (semifuture_addIfaceAddresses "eth0" [net_192_168_1_1] refusing).1 =
    [AddIfAddress (addRemoveAddress 1 net_192_168_1_1)].
Proof.
  split_and!.
  - destruct (addRemove_idempotent kernel1_ops "eth0" 1 [net_10_0_0_1])
      as (_ & _ & Hfake).
    destruct Hfake as ([_ Hadd] & _);
      [vm_compute; reflexivity | | exact Hadd].
    intros p Hp. apply list_elem_of_singleton in Hp. subst p.
    apply (bool_decide_unpack _). vm_compute. exact I.
  - destruct (addRemove_idempotent kernel1_ops "eth0" 1 [net_192_168_1_1])
      as (_ & _ & Hfake).
    destruct Hfake as (_ & [_ Hdel] & _);
      [vm_compute; reflexivity | | exact Hdel].
    intros p Hp. apply list_elem_of_singleton in Hp. subst p.
    apply (bool_decide_unpack _). vm_compute. exact I.
  - destruct (addRemove_idempotent kernel1_ops "eth0" 1 [net_192_168_1_1])
      as (_ & Hmock & _).
    destruct (Hmock refusing true) as [_ Hres]; [vm_compute; reflexivity|].
    exact Hres.
  - destruct (addRemove_idempotent kernel1_ops "eth0" 1 [net_192_168_1_1])
      as (_ & Hmock & _).
    destruct (Hmock refusing true) as [Hlog _]; [vm_compute; reflexivity|].
    exact Hlog.
Defined.

(** Adding the route to 10.0.0.0/8 under protocol 99 a second time, with
    other next hops: [getRoutes] for protocol 99 lists one route with that
    key, the second one. *)
Lemma route_keys_unique_witness :
  filter (λ x, routeKey x = Some (UnicastKey 99 net_10_8))
    (getRoutes proto99
       (run [AddRoute (route_10_8 via1); AddRoute (route_10_8 via2)] init)) =
  [route_10_8 via2].
Proof.
  destruct (route_keys_unique [AddRoute (route_10_8 via1)] proto99)
    as (_ & _ & _ & Hadd).
  destruct (Hadd (route_10_8 via2) _ eq_refl) as (_ & _ & _ & Hone).
  apply Hone. vm_compute. exact I.
Defined.

(** The kernel reports eth0 (index 1) and lo (index 2) and the address
    10.0.0.1/24 on index 1. *)
Lemma getAllLinks_with_networks_witness :
  ∃ result,
    semifuture_getAllLinks kernel1 = SemiFuture (Value result) ∧
    result ≡ₚ [ThriftLink.mk _ "eth0" 1 true [net_10_0_0_1];
               ThriftLink.mk _ "lo" 2 true []].
Proof.
  destruct (getAllLinks_with_networks kernel1) as (result & Hres & Hperm).
  - apply (bool_decide_unpack _). vm_compute. exact I.
  - apply (bool_decide_unpack _). vm_compute. exact I.
  - exists result. split; [exact Hres|]. rewrite Hperm.
    vm_compute. apply perm_swap.
Defined.

(** eth0 carries 10.0.0.1/24 (scope universe) and fe80::1/64 (scope link):
    under scope universe and any family only the first is returned. *)
Lemma getIfaceAddresses_scope_mandatory_witness :
  semifuture_getIfaceAddresses "eth0" 0 RT_SCOPE_UNIVERSE kernel3 =
  SemiFuture (Value [net_10_0_0_1]).
Proof.
  destruct (getIfaceAddresses_scope_mandatory "eth0" 0 RT_SCOPE_UNIVERSE
              kernel3 1) as [Hget _].
  - vm_compute. reflexivity.
  - apply (bool_decide_unpack _). vm_compute. exact I.
  - exact Hget.
Defined.

Lemma ifaddr_unknown_ifindex_rejected_witness :
  addIfAddress (createIfAddress (H:=net) 7 net_10_0_0_1) kernel1 =
    (kernel1, - ENXIO) ∧
  deleteIfAddress (createIfAddress (H:=net) 7 net_10_0_0_1) kernel1 =
    (kernel1, - ENXIO).
Proof.
  apply (ifaddr_unknown_ifindex_rejected kernel1_ops
           (createIfAddress (H:=net) 7 net_10_0_0_1)).
  vm_compute. reflexivity.
Defined.

Lemma rcvd_not_overridden_aborts_witness :
  NetlinkMessage.rcvdRoute plainFrame (route_10_8 via1) () =
    NetlinkMessage.Abort "Must be implemented by subclass" ∧
  NetlinkMessage.rcvdLink plainFrame eth0 () =
    NetlinkMessage.Abort "Must be implemented by subclass" ∧
  NetlinkMessage.rcvdIfAddress plainFrame (createIfAddress (H:=net) 1 net_10_0_0_1) ()
    = NetlinkMessage.Abort "Must be implemented by subclass".
Proof.
  destruct (rcvd_not_overridden_aborts plainFrame) as (Hr & Hl & _ & Ha).
  split_and!; [apply Hr | apply Hl | apply Ha]; reflexivity.
Defined.

(** Deleting the MPLS route for label 100 where none is stored. *)
Lemma deleteRoute_absent_is_ESRCH_witness :
  (deleteRoute mpls100 kernel1).2 = Value ESRCH.
Proof.
  destruct (deleteRoute_absent_is_ESRCH mpls100 kernel1 (MplsKey 99 100))
    as [Hret _]; [reflexivity|].
  rewrite Hret. vm_compute. reflexivity.
Defined.

Lemma addr_table_tracks_links_witness :
  dom (ifAddrs_ kernel3) = dom (links_ kernel3) ∧
  addLink eth0 kernel3 = (kernel3, - EEXIST).
Proof.
  destruct (addr_table_tracks_links kernel3_ops)
    as (Hdom & _ & _ & _ & Hdup & _).
  split; [exact Hdom|]. apply Hdup. vm_compute. eauto.
Defined.

End examples.

(** * Further properties of the code *)

(** ** Routes of the in-memory socket *)

Section more_routes.
Context `{NetworkUtil}.
Import FakeNetlinkProtocolSocket.
Implicit Types (s : FakeNetlinkProtocolSocket.t).

Lemma applyFilter_true (flt r : Route.t) :
  applyFilter flt r ↔
  (Route.getProtocolId flt = 0 ∨
   Route.getProtocolId flt = Route.getProtocolId r) ∧
  (Route.getFamily flt = 0 ∨ Route.getFamily flt = Route.getFamily r) ∧
  (Route.getType flt = 0 ∨ Route.getType flt = Route.getType r).
Proof.
  unfold applyFilter. repeat case_bool_decide; simpl; split; try done; lia.
Qed.

(** [getRoutes] lists exactly the stored routes that pass the filter; each
    of protocol, family and type is tested only when the filter's value is
    not 0. *)
Theorem getRoutes_filter (ops : list Op) (flt r : Route.t) :
  let s := run ops init in
  r ∈ getRoutes flt s ↔
  (∃ k, routeKey r = Some k ∧ lookupRoute k s = Some r) ∧
  (Route.getProtocolId flt = 0 ∨
   Route.getProtocolId flt = Route.getProtocolId r) ∧
  (Route.getFamily flt = 0 ∨ Route.getFamily flt = Route.getFamily r) ∧
  (Route.getType flt = 0 ∨ Route.getType flt = Route.getType r).
Proof.
  intros s. assert (wf s) as Hwf by apply wf_run, wf_init.
  rewrite (elem_of_getRoutes flt s r Hwf), applyFilter_true. tauto.
Qed.

(** Deleting a route that was just added succeeds and takes it out again:
    a second delete answers ESRCH, the route is no longer listed, and every
    route of another key is listed as before the add. *)
Theorem addRoute_then_deleteRoute (ops : list Op) (route : Route.t)
    (k : RouteKey) :
  let s := run ops init in
  routeKey route = Some k →
  let s1 := (addRoute route s).1 in
  let s2 := (deleteRoute route s1).1 in
  (deleteRoute route s1).2 = Value 0 ∧
  (deleteRoute route s2).2 = Value ESRCH ∧
  (∀ k', lookupRoute k' s2 =
         if decide (k' = k) then None else lookupRoute k' s) ∧
  (∀ flt r, r ∈ getRoutes flt s2 ↔
            r ∈ getRoutes flt s ∧ routeKey r ≠ Some k).
Proof.
  intros s Hk s1 s2. assert (wf s) as Hwf by apply wf_run, wf_init.
  assert (wf s2) as Hwf2 by by apply wf_deleteRoute, wf_addRoute.
  assert (∀ k', lookupRoute k' s2 =
                if decide (k' = k) then None else lookupRoute k' s) as Hlook.
  { intros k'. unfold s2, s1.
    rewrite (lookupRoute_deleteRoute route _ k k' Hk).
    case_decide; [done|].
    rewrite (lookupRoute_addRoute route s k k' Hk). by rewrite decide_False. }
  split_and!.
  - unfold s1. rewrite (deleteRoute_status route _ k Hk).
    rewrite (lookupRoute_addRoute route s k k Hk). by rewrite decide_True.
  - rewrite (deleteRoute_status route s2 k Hk), Hlook.
    by rewrite decide_True.
  - done.
  - intros flt r.
    rewrite (elem_of_getRoutes flt s2 r Hwf2), (elem_of_getRoutes flt s r Hwf).
    split.
    + intros (Hf & k' & Hk' & Hl). rewrite Hlook in Hl.
      case_decide; [done|]. split; [eauto|]. congruence.
    + intros [(Hf & k' & Hk' & Hl) Hne]. split; [done|]. exists k'.
      split; [done|]. rewrite Hlook. rewrite decide_False; [done|].
      congruence.
Qed.

(** The route calls never touch links or addresses, and the link and
    address calls never touch routes. *)
Theorem routes_and_addresses_independent s :
  (∀ r, getAllLinks (addRoute r s).1 = getAllLinks s ∧
        getAllIfAddresses (addRoute r s).1 = getAllIfAddresses s ∧
        getAllLinks (deleteRoute r s).1 = getAllLinks s ∧
        getAllIfAddresses (deleteRoute r s).1 = getAllIfAddresses s) ∧
  (∀ a flt, getRoutes flt (addIfAddress a s).1 = getRoutes flt s ∧
            getRoutes flt (deleteIfAddress a s).1 = getRoutes flt s) ∧
  (∀ l flt, getRoutes flt (addLink l s).1 = getRoutes flt s).
Proof.
  split_and!.
  - intros r. destruct (addRoute_tables r s) as [El Ea].
    destruct (deleteRoute_tables r s) as [El' Ea'].
    unfold getAllLinks, getAllIfAddresses. by rewrite El, Ea, El', Ea'.
  - intros a flt. unfold addIfAddress, deleteIfAddress.
    split; by repeat case_match.
  - intros l flt. unfold addLink. by repeat case_match.
Qed.

End more_routes.

(** ** Addresses of the in-memory socket *)

Section more_addresses.
Context `{NetworkUtil}.
Import FakeNetlinkProtocolSocket.
Implicit Types (s : FakeNetlinkProtocolSocket.t) (a addr : IfAddress.t).

(** After any run, the addresses reported for one interface index have a
    prefix each, and no two of them have the same prefix. *)
Theorem iface_prefixes_distinct (ops : list Op) (i : Z) :
  let s := run ops init in
  let onIface :=
    filter (λ a, IfAddress.getIfIndex a = i) (getAllIfAddresses s) in
  NoDup (IfAddress.getPrefix <$> onIface) ∧
  Forall (λ a, is_Some (IfAddress.getPrefix a)) onIface.
Proof.
  intros s onIface. assert (wf s) as Hwf by apply wf_run, wf_init.
  unfold onIface. rewrite (getAllIfAddresses_of_index s i Hwf).
  destruct (wf_addrsOf s i Hwf) as [Hall Hnd]. split; [done|].
  eapply Forall_impl; [exact Hall|]. by intros a [_ ?].
Qed.

Lemma eraseFirst_app_fresh addr (l : list IfAddress.t) :
  IfAddress.getPrefix addr ∉ IfAddress.getPrefix <$> l →
  eraseFirst addr (l ++ [addr]) = Some l.
Proof.
  induction l as [|a l IH]; simpl.
  - intros _. unfold samePrefix. by rewrite bool_decide_eq_true_2.
  - rewrite not_elem_of_cons. intros [Hne Hnot].
    unfold samePrefix at 1. rewrite bool_decide_eq_false_2 by done.
    by rewrite IH.
Qed.

(** An address whose addition is answered 0 is then reported; adding it
    again is answered -EEXIST and changes nothing; deleting it is answered 0
    and puts the socket back exactly as it was before the addition, where
    deleting it is answered -EADDRNOTAVAIL. *)
Theorem addIfAddress_then_deleteIfAddress (ops : list Op) addr :
  let s := run ops init in
  (addIfAddress addr s).2 = 0 →
  let s1 := (addIfAddress addr s).1 in
  addr ∈ getAllIfAddresses s1 ∧
  addIfAddress addr s1 = (s1, - EEXIST) ∧
  deleteIfAddress addr s1 = (s, 0) ∧
  deleteIfAddress addr s = (s, - EADDRNOTAVAIL).
Proof.
  intros s Hret s1. unfold s1.
  destruct (addIfAddress_cases addr s)
    as [[E _]|[[E _]|(E & [l Hl] & Hp & Hnot)]];
    rewrite E in *; simpl in *; [done..|].
  assert (addrsOf (IfAddress.getIfIndex addr) s = l) as Hof
    by (unfold addrsOf; by rewrite Hl).
  rewrite Hof in *.
  assert (bool_decide (IfAddress.getPrefix addr = None) = false) as Hb.
  { apply bool_decide_eq_false. by apply not_eq_None_Some. }
  split_and!.
  - apply elem_of_getAllIfAddresses.
    exists (IfAddress.getIfIndex addr), (l ++ [addr]). simpl.
    rewrite lookup_insert_eq. split; [done|].
    apply elem_of_app. right. by left.
  - unfold addIfAddress. simpl. rewrite lookup_insert_eq, Hb.
    assert (existsb (samePrefix addr) (l ++ [addr]) = true) as ->; [|done].
    apply existsb_samePrefix. rewrite fmap_app. apply elem_of_app.
    right. by left.
  - unfold deleteIfAddress. simpl.
    rewrite lookup_insert_eq, Hb, eraseFirst_app_fresh by done.
    f_equal. destruct s as [ls ads us ms]. unfold set_ifAddrs. simpl in *.
    f_equal. rewrite insert_insert_eq. by apply insert_id.
  - unfold deleteIfAddress. rewrite Hl, Hb.
    by apply eraseFirst_None in Hnot as ->.
Qed.

End more_addresses.

(** ** add, remove and get on the in-memory socket *)

Section more_handler_on_fake.
Context `{NetworkUtil}.
Import FakeNetlinkProtocolSocket NetlinkSystemHandler.
Implicit Types (s : FakeNetlinkProtocolSocket.t) (a x : IfAddress.t).

(** Requests for interface [i] leave the address lists of the other
    interfaces alone. *)
Lemma issue_frame (reqs : list Request) s (i : Z) :
  Forall (λ r, match r with
               | AddIfAddress a | DeleteIfAddress a =>
                   IfAddress.getIfIndex a = i
               end) reqs →
  ∀ j, j ≠ i → addrsOf j (issue reqs s).1 = addrsOf j s.
Proof.
  intros Hall j Hj. revert s.
  induction Hall as [|r reqs Hr _ IH]; intros s; simpl; [done|].
  destruct (send r s) as [s1 ret] eqn:E. specialize (IH s1).
  destruct (issue reqs s1) as [s2 rets]. simpl in *. rewrite IH.
  assert (s1 = (send r s).1) as -> by by rewrite E.
  clear E. unfold addrsOf.
  destruct r as [a|a]; simpl;
    unfold addIfAddress, deleteIfAddress; repeat case_match; simpl; try done;
    by rewrite lookup_insert_ne by congruence.
Qed.

Lemma addRemoveRequests_iface (isAdd : bool) (i : Z) (addrs : list IpPrefix) :
  Forall (λ r, match r with
               | AddIfAddress a | DeleteIfAddress a =>
                   IfAddress.getIfIndex a = i
               end) (addRemoveRequest isAdd i <$> addrs).
Proof.
  apply Forall_fmap, Forall_forall. intros p _.
  unfold addRemoveRequest. by destruct isAdd.
Qed.

(** After an add batch for a known interface every address of the batch is
    on the interface, nothing that was there is lost, what is new was built
    from the batch, and the other interfaces and the links are as before. *)
Theorem addIfaceAddresses_effect (ops : list Op) (ifName : string) (i : Z)
    (addrs : list IpPrefix) :
  let s := run ops init in
  getIfIndex ifName s = Some i →
  let s' := (semifuture_addIfaceAddresses ifName addrs s).1 in
  (∀ p, p ∈ addrs →
        Some (toIPNetwork p) ∈ IfAddress.getPrefix <$> addrsOf i s') ∧
  (∀ x, x ∈ addrsOf i s → x ∈ addrsOf i s') ∧
  (∀ x, x ∈ addrsOf i s' →
        x ∈ addrsOf i s ∨ ∃ p, p ∈ addrs ∧ x = addRemoveAddress i p) ∧
  (∀ j, j ≠ i → addrsOf j s' = addrsOf j s) ∧
  getAllLinks s' = getAllLinks s.
Proof.
  intros s Hi s'. assert (wf s) as Hwf by apply wf_run, wf_init.
  destruct (getIfIndex_known ifName s i Hwf Hi) as [_ Ha].
  assert (Forall (forIface i) (addRemoveAddress i <$> addrs)) as Hall.
  { apply Forall_fmap, Forall_forall. intros p _.
    apply addRemoveAddress_forIface. }
  destruct (issue_adds _ s i Hwf Ha Hall)
    as (s1 & rets & E & _ & Hl & _ & _ & Hkeep & Hnew & Hpre).
  rewrite <- list_fmap_compose in E.
  assert (s' = s1) as Hs'.
  { unfold s', semifuture_addIfaceAddresses.
    rewrite (addRemoveIfAddresses_known true ifName addrs s i Hi).
    unfold addRemoveRequest. simpl. unfold compose in E. by rewrite E. }
  split_and!.
  - intros p Hp. rewrite Hs'.
    apply (Hpre (addRemoveAddress i p)). by apply list_elem_of_fmap_2.
  - rewrite Hs'. exact Hkeep.
  - rewrite Hs'. intros x Hx. destruct (Hnew x Hx) as [?|Hin]; [by left|].
    right. apply list_elem_of_fmap in Hin as (p & -> & Hp). eauto.
  - intros j Hj. unfold s', semifuture_addIfaceAddresses.
    rewrite (addRemoveIfAddresses_known true ifName addrs s i Hi). simpl.
    by apply (issue_frame _ s i); [apply addRemoveRequests_iface|].
  - rewrite Hs'. unfold getAllLinks. by rewrite Hl.
Qed.

(** After a remove batch for a known interface the addresses of the
    interface are exactly those that were there and whose prefix is not in
    the batch, whatever their scope; the other interfaces and the links are
    as before. *)
Theorem removeIfaceAddresses_effect (ops : list Op) (ifName : string) (i : Z)
    (addrs : list IpPrefix) :
  let s := run ops init in
  getIfIndex ifName s = Some i →
  let s' := (semifuture_removeIfaceAddresses ifName addrs s).1 in
  (∀ x, x ∈ addrsOf i s' ↔
        x ∈ addrsOf i s ∧
        ∀ p, p ∈ addrs → IfAddress.getPrefix x ≠ Some (toIPNetwork p)) ∧
  (∀ j, j ≠ i → addrsOf j s' = addrsOf j s) ∧
  getAllLinks s' = getAllLinks s.
Proof.
  intros s Hi s'. assert (wf s) as Hwf by apply wf_run, wf_init.
  destruct (getIfIndex_known ifName s i Hwf Hi) as [_ Ha].
  assert (Forall (forIface i) (addRemoveAddress i <$> addrs)) as Hall.
  { apply Forall_fmap, Forall_forall. intros p _.
    apply addRemoveAddress_forIface. }
  destruct (issue_deletes _ s i Hwf Ha Hall)
    as (s1 & rets & E & _ & Hl & _ & _ & Hiff).
  rewrite <- list_fmap_compose in E.
  assert (s' = s1) as Hs'.
  { unfold s', semifuture_removeIfaceAddresses.
    rewrite (addRemoveIfAddresses_known false ifName addrs s i Hi).
    unfold addRemoveRequest. simpl. unfold compose in E. by rewrite E. }
  split_and!.
  - intros x. rewrite Hs', Hiff. apply and_iff_compat_l.
    rewrite <- list_fmap_compose, list_elem_of_fmap. split.
    + intros Hnot p Hp Heq. apply Hnot. by exists p.
    + intros Hnot (p & Heq & Hp). by apply (Hnot p Hp).
  - intros j Hj. unfold s', semifuture_removeIfaceAddresses.
    rewrite (addRemoveIfAddresses_known false ifName addrs s i Hi). simpl.
    by apply (issue_frame _ s i); [apply addRemoveRequests_iface|].
  - rewrite Hs'. unfold getAllLinks. by rewrite Hl.
Qed.

Lemma addressScope_uint8 (n : CIDRNetwork) :
  to_uint8 (addressScope n) = addressScope n.
Proof. unfold addressScope. by repeat case_match. Qed.

(** Adding one address that is not yet on a known interface and then
    reading the interface under the scope of the address's class (host for
    loopback, link for link-local, universe otherwise) and a family that
    lets it pass returns what was read before followed by the address. *)
Theorem add_then_get (ops : list Op) (ifName : string) (i fam : Z)
    (p : IpPrefix) (old : list IpPrefix) :
  let s := run ops init in
  let scope := addressScope (toIPNetwork p) in
  getIfIndex ifName s = Some i →
  toIpPrefix (toIPNetwork p) = p →
  Some (toIPNetwork p) ∉ IfAddress.getPrefix <$> addrsOf i s →
  fam = 0 ∨ family (toIPNetwork p).1 = fam →
  semifuture_getIfaceAddresses ifName fam scope s = SemiFuture (Value old) →
  ∃ s',
    semifuture_addIfaceAddresses ifName [p] s = (s', SemiFuture (Value ())) ∧
    semifuture_getIfaceAddresses ifName fam scope s' =
      SemiFuture (Value (old ++ [p])).
Proof.
  intros s scope Hi Hrt Hnot Hfam Hget.
  assert (wf s) as Hwf by apply wf_run, wf_init.
  destruct (getIfIndex_known ifName s i Hwf Hi) as [_ Ha].
  destruct (addRemoveAddress_forIface i p) as [Hfor Hpre].
  destruct (add_step (addRemoveAddress i p) s i Hwf Ha Hfor)
    as (s1 & ret & E & Hwf1 & Hl1 & _ & [(_ & _ & Hin)|(-> & Hof & _)]).
  { destruct Hnot. by rewrite <- Hpre. }
  exists s1. split.
  - unfold semifuture_addIfaceAddresses.
    rewrite (addRemoveIfAddresses_known true ifName [p] s i Hi). simpl.
    change (NetlinkProtocolSocket.addIfAddress (addRemoveAddress i p) s)
      with (addIfAddress (addRemoveAddress i p) s).
    by rewrite E.
  - assert (getIfIndex ifName s1 = Some i) as Hi1.
    { rewrite <- Hi. by apply getIfIndex_links. }
    rewrite (getIfaceAddresses_fake ifName fam scope s1 i Hwf1 Hi1).
    rewrite (getIfaceAddresses_fake ifName fam scope s i Hwf Hi) in Hget.
    injection Hget as <-.
    rewrite Hof, filter_app, omap_app, fmap_app. do 3 f_equal.
    rewrite filter_cons_True.
    + simpl. by rewrite Hrt.
    + split; [done|]. simpl. apply addressScope_uint8.
Qed.

End more_handler_on_fake.

(** ** The handler, over any protocol socket *)

Section more_handler.
Context `{NetworkUtil} {S : Type} `{!NetlinkProtocolSocket.t S}.
Import NetlinkSystemHandler.



(** The check of status codes reports the first code that is not 0, EEXIST
    or EADDRNOTAVAIL in absolute value, with its sign dropped. *)
Theorem collectRetvals_first_failure (pre post : list Z) (ret : Z) :
  Forall benign pre → ¬ benign ret →
  collectRetvals (pre ++ ret :: post) =
  Raised (NlException "Address add/remove failed." (Z.abs ret)).
Proof.
  unfold benign. intros Hpre Hbad.
  induction Hpre as [|r pre Hr _ IH]; simpl.
  - rewrite bool_decide_eq_true_2; [done | lia].
  - rewrite bool_decide_eq_false_2; [done | lia].
Qed.

(** [getIfIndex] answers with the index of the first reported link that has
    the name, and with nothing exactly when no reported link has it. *)
Theorem getIfIndex_first_match (ifName : string) (s : S) :
  (∀ pre link post,
     NetlinkProtocolSocket.getAllLinks s = pre ++ link :: post →
     Forall (λ l, Link.getLinkName l ≠ ifName) pre →
     Link.getLinkName link = ifName →
     getIfIndex ifName s = Some (Link.getIfIndex link)) ∧
  (∀ i, getIfIndex ifName s = Some i →
     ∃ link, link ∈ NetlinkProtocolSocket.getAllLinks s ∧
             Link.getLinkName link = ifName ∧ Link.getIfIndex link = i) ∧
  (getIfIndex ifName s = None ↔
   ∀ link, link ∈ NetlinkProtocolSocket.getAllLinks s →
           Link.getLinkName link ≠ ifName).
Proof.
  split_and!.
  - intros pre link post E Hpre Hname. unfold getIfIndex. rewrite E.
    clear E. induction Hpre as [|l pre Hl _ IH]; simpl.
    + rewrite bool_decide_eq_true_2 by done. reflexivity.
    + rewrite bool_decide_eq_false_2 by done. exact IH.
  - unfold getIfIndex. intros i (link & Hf & ->)%fmap_Some.
    apply find_some in Hf as [Hin%list_elem_of_In Hn%bool_decide_eq_true].
    eauto.
  - apply getIfIndex_None.
Qed.

Lemma addAddresses_out_of_range (nlAddrs : list IfAddress.t)
    (links : gmap Z ThriftLink.t) :
  Forall (λ a, is_Some (IfAddress.getPrefix a)) nlAddrs →
  Exists (λ a, links !! IfAddress.getIfIndex a = None) nlAddrs →
  addAddresses nlAddrs links = Raised out_of_range.
Proof.
  intros Hall. revert links.
  induction Hall as [|a l [n Hn] _ IH]; intros links Hex; simpl.
  - by apply Exists_nil in Hex.
  - destruct (links !! IfAddress.getIfIndex a) as [link|] eqn:Hl; [|done].
    rewrite Hn. apply IH. apply Exists_cons in Hex as [Hex|Hex]; [congruence|].
    eapply Exists_impl; [exact Hex|]. intros b Hb. simpl in Hb.
    rewrite lookup_insert_ne; [done|]. congruence.
Qed.

Lemma addAddresses_no_prefix (nlAddrs : list IfAddress.t)
    (links : gmap Z ThriftLink.t) :
  Forall (λ a, is_Some (links !! IfAddress.getIfIndex a)) nlAddrs →
  Exists (λ a, IfAddress.getPrefix a = None) nlAddrs →
  addAddresses nlAddrs links = Raised bad_optional_access.
Proof.
  intros Hall. revert links Hall.
  induction nlAddrs as [|a l IH]; intros links Hall Hex; simpl.
  - by apply Exists_nil in Hex.
  - apply Forall_cons in Hall as [[link Hl] Hall]. rewrite Hl.
    destruct (IfAddress.getPrefix a) as [n|] eqn:Hn; [|done].
    apply IH.
    + eapply Forall_impl; [exact Hall|]. intros b Hb. simpl in Hb.
      rewrite lookup_insert. by case_decide.
    + apply Exists_cons in Hex as [Hex|Hex]; [congruence | done].
Qed.

(** When [semifuture_getAllLinks] fails: if every reported address has a
    prefix and one carries the index of no reported link, the future holds
    [std::out_of_range]; if every reported address carries the index of a
    reported link and one has no prefix, it holds
    [std::bad_optional_access]. *)
Theorem getAllLinks_failures (s : S) :
  let nlLinks := NetlinkProtocolSocket.getAllLinks s in
  let nlAddrs := NetlinkProtocolSocket.getAllIfAddresses s in
  (Forall (λ a, is_Some (IfAddress.getPrefix a)) nlAddrs →
   Exists (λ a, IfAddress.getIfIndex a ∉ Link.getIfIndex <$> nlLinks)
     nlAddrs →
   semifuture_getAllLinks s = SemiFuture (Raised out_of_range)) ∧
  (Forall (λ a, IfAddress.getIfIndex a ∈ Link.getIfIndex <$> nlLinks)
     nlAddrs →
   Exists (λ a, IfAddress.getPrefix a = None) nlAddrs →
   semifuture_getAllLinks s = SemiFuture (Raised bad_optional_access)).
Proof.
  intros nlLinks nlAddrs.
  assert (∀ k, createLinks nlLinks !! k = None ↔
               k ∉ Link.getIfIndex <$> nlLinks) as Hdom.
  { intros k. rewrite createLinks_list_to_map, <- not_elem_of_list_to_map.
    by rewrite <- list_fmap_compose. }
  unfold semifuture_getAllLinks. fold nlLinks nlAddrs. split.
  - intros Hall Hex. rewrite addAddresses_out_of_range; [done..|].
    eapply Exists_impl; [exact Hex|]. intros a Ha. by apply Hdom.
  - intros Hall Hex. rewrite addAddresses_no_prefix; [done| |done].
    eapply Forall_impl; [exact Hall|]. intros a Ha. simpl in Ha.
    apply not_eq_None_Some. intros Hn. by apply Hdom in Hn.
Qed.

End more_handler.

(** ** Links, sync and label-less MPLS routes on the in-memory socket *)

Section more_on_fake.
Context `{NetworkUtil}.
Import FakeNetlinkProtocolSocket NetlinkSystemHandler.
Implicit Types (s : FakeNetlinkProtocolSocket.t) (a x : IfAddress.t).

(** A link with a new index and a new name, once added, is found by its
    name; its interface has no address under any filter, and an address
    with a prefix can be added to it. *)
Theorem addLink_then_getIfIndex (ops : list Op) (link : Link.t) :
  let s := run ops init in
  Link.getIfIndex link ∉ Link.getIfIndex <$> getAllLinks s →
  (∀ l, l ∈ getAllLinks s → Link.getLinkName l ≠ Link.getLinkName link) →
  let s' := (addLink link s).1 in
  (addLink link s).2 = 0 ∧
  getIfIndex (Link.getLinkName link) s' = Some (Link.getIfIndex link) ∧
  (∀ fam scope,
     semifuture_getIfaceAddresses (Link.getLinkName link) fam scope s' =
     SemiFuture (Value [])) ∧
  (∀ a, IfAddress.getIfIndex a = Link.getIfIndex link →
        is_Some (IfAddress.getPrefix a) → (addIfAddress a s').2 = 0).
Proof.
  intros s Hnew Hname s'. assert (wf s) as Hwf by apply wf_run, wf_init.
  assert (wf s') as Hwf' by by apply wf_addLink.
  assert (links_ s !! Link.getIfIndex link = None) as Hnone.
  { destruct (links_ s !! Link.getIfIndex link) as [l|] eqn:Hl; [|done].
    destruct Hnew. apply list_elem_of_fmap. exists l.
    split; [by rewrite (wf_link s Hwf _ _ Hl)|].
    apply elem_of_getAllLinks. eauto. }
  destruct (addLink_cases link s Hwf) as [[_ Hs]|(E & _ & _)].
  { rewrite Hnone in Hs. by destruct Hs. }
  assert (getIfIndex (Link.getLinkName link) s' = Some (Link.getIfIndex link))
    as Hfound.
  { destruct (getIfIndex (Link.getLinkName link) s') as [i|] eqn:Hi.
    - unfold getIfIndex in Hi. apply fmap_Some in Hi as (l & Hf & ->).
      apply find_some in Hf as [Hin%list_elem_of_In Hn%bool_decide_eq_true].
      apply elem_of_getAllLinks in Hin as [k Hk].
      unfold s' in Hk. rewrite E in Hk. simpl in Hk.
      rewrite lookup_insert in Hk. case_decide; [by simplify_eq|].
      destruct (Hname l); [|done]. apply elem_of_getAllLinks. eauto.
    - pose proof (proj1 (getIfIndex_None _ _) Hi link) as Hno.
      destruct Hno; [|done]. apply elem_of_getAllLinks.
      exists (Link.getIfIndex link). unfold s'. rewrite E. simpl.
      by rewrite lookup_insert_eq. }
  assert (addrsOf (Link.getIfIndex link) s' = []) as Hempty.
  { unfold s'. rewrite E. simpl. apply addrsOf_set. }
  split_and!.
  - by rewrite E.
  - done.
  - intros fam scope.
    rewrite (getIfaceAddresses_fake _ fam scope s' _ Hwf' Hfound).
    by rewrite Hempty.
  - intros a Hidx Hp. unfold addIfAddress. rewrite Hidx.
    unfold s' at 1. rewrite E. simpl. rewrite lookup_insert_eq.
    rewrite bool_decide_eq_false_2; [done|]. by apply not_eq_None_Some.
Qed.

Lemma syncRequests_iface (i scope : Z) (oldAddrs newAddrs : list IpPrefix) :
  Forall (λ r, match r with
               | AddIfAddress a | DeleteIfAddress a =>
                   IfAddress.getIfIndex a = i
               end) (syncRequests i scope oldAddrs newAddrs).
Proof.
  unfold syncRequests. apply Forall_app.
  split; apply Forall_fmap, Forall_forall; by intros p _.
Qed.

(** A sync of a known interface never removes an address of that interface
    that the family and scope filter leaves out, and leaves the other
    interfaces and the links as they are (stored networks being assumed to
    survive the conversion to a thrift prefix and back). *)
Theorem sync_spares_unfiltered (ops : list Op) (ifName : string)
    (fam scope : Z) (newAddrs : list IpPrefix) (i : Z) :
  let s := run ops init in
  getIfIndex ifName s = Some i →
  (∀ a n, a ∈ addrsOf i s → IfAddress.getPrefix a = Some n →
          toIPNetwork (toIpPrefix n) = n) →
  let s' := (semifuture_syncIfaceAddresses ifName fam scope newAddrs s).1 in
  (∀ x, x ∈ addrsOf i s →
        ¬ ((fam = 0 ∨ IfAddress.getFamily x = fam) ∧
           IfAddress.getScope x = scope) →
        x ∈ addrsOf i s') ∧
  (∀ j, j ≠ i → addrsOf j s' = addrsOf j s) ∧
  getAllLinks s' = getAllLinks s.
Proof.
  intros s Hi Hrt s'. assert (wf s) as Hwf by apply wf_run, wf_init.
  destruct (getIfIndex_known ifName s i Hwf Hi) as [_ Ha].
  pose proof (getIfaceAddresses_fake ifName fam scope s i Hwf Hi) as Hget.
  set (F := λ a : IfAddress.t,
         (fam = 0 ∨ IfAddress.getFamily a = fam) ∧
         IfAddress.getScope a = scope) in *.
  set (oldAddrs := toIpPrefix <$>
                     omap IfAddress.getPrefix (filter F (addrsOf i s))) in *.
  set (reqs := syncRequests i scope oldAddrs newAddrs).
  assert (s' = (issue reqs s).1) as Hs'.
  { unfold s'.
    by rewrite (syncIfaceAddresses_known ifName fam scope newAddrs s i
                  oldAddrs Hi Hget). }
  set (adds := syncAddress i scope <$>
                 filter (λ p, p ∉ oldAddrs) newAddrs).
  set (dels := syncAddress i scope <$>
                 filter (λ p, p ∉ newAddrs) oldAddrs).
  assert (reqs = (AddIfAddress <$> adds) ++ (DeleteIfAddress <$> dels))
    as Hreqs.
  { unfold reqs, syncRequests, adds, dels.
    by rewrite <- !list_fmap_compose. }
  assert (Forall (forIface i) adds) as Hadds.
  { apply Forall_fmap, Forall_forall. intros p _.
    apply syncAddress_forIface. }
  assert (Forall (forIface i) dels) as Hdels.
  { apply Forall_fmap, Forall_forall. intros p _.
    apply syncAddress_forIface. }
  destruct (issue_adds adds s i Hwf Ha Hadds)
    as (s1 & rets1 & E1 & Hwf1 & Hl1 & Ha1 & _ & Hkeep & _ & _).
  destruct (issue_deletes dels s1 i Hwf1 Ha1 Hdels)
    as (s2 & rets2 & E2 & _ & Hl2 & _ & _ & Hdel).
  assert (s' = s2) as Hs2.
  { by rewrite Hs', Hreqs, issue_app, E1, E2. }
  split_and!.
  - intros x Hx HnF. rewrite Hs2. apply Hdel. split; [by apply Hkeep|].
    unfold dels. rewrite <- list_fmap_compose, list_elem_of_fmap.
    intros (q & Hq & [_ Hold]%list_elem_of_filter). simpl in Hq.
    apply elem_of_kept_prefixes in Hold as (y & n & Hy & HFy & Hn & ->).
    rewrite (Hrt y n Hy Hn), <- Hn in Hq.
    destruct (wf_addrsOf s i Hwf) as [_ Hnd].
    assert (x = y) as ->
      by by apply (NoDup_fmap_eq IfAddress.getPrefix (addrsOf i s)).
    done.
  - intros j Hj. rewrite Hs'.
    by apply (issue_frame _ s i); [apply syncRequests_iface|].
  - rewrite Hs2. unfold getAllLinks. by rewrite Hl2, Hl1.
Qed.

(** An MPLS route without a label makes [addRoute] and [deleteRoute] throw
    [std::bad_optional_access]; the routes listed are as before. *)
Theorem mpls_route_without_label (ops : list Op) (route : Route.t) :
  let s := run ops init in
  Route.getFamily route = AF_MPLS →
  Route.getMplsLabel route = None →
  (addRoute route s).2 = Raised bad_optional_access ∧
  (deleteRoute route s).2 = Raised bad_optional_access ∧
  (∀ flt r, r ∈ getRoutes flt (addRoute route s).1 ↔ r ∈ getRoutes flt s) ∧
  (∀ flt r, r ∈ getRoutes flt (deleteRoute route s).1 ↔
            r ∈ getRoutes flt s).
Proof.
  intros s Hfam Hlabel. assert (wf s) as Hwf by apply wf_run, wf_init.
  assert (routeKey route = None) as Hk.
  { rewrite (routeKey_mpls route Hfam). by rewrite Hlabel. }
  split_and!.
  - by destruct (lookupRoute_addRoute_None route s (MplsKey 0 0) Hk).
  - by destruct (lookupRoute_deleteRoute_None route s (MplsKey 0 0) Hk).
  - intros flt r.
    rewrite (elem_of_getRoutes flt _ r (wf_addRoute route s Hwf)).
    rewrite (elem_of_getRoutes flt s r Hwf).
    apply and_iff_compat_l. split; intros (k & ? & Hl); exists k;
      (split; [done|]);
      destruct (lookupRoute_addRoute_None route s k Hk) as [_ E];
      by rewrite E in *.
  - intros flt r.
    rewrite (elem_of_getRoutes flt _ r (wf_deleteRoute route s Hwf)).
    rewrite (elem_of_getRoutes flt s r Hwf).
    apply and_iff_compat_l. split; intros (k & ? & Hl); exists k;
      (split; [done|]);
      destruct (lookupRoute_deleteRoute_None route s k Hk) as [_ E];
      by rewrite E in *.
Qed.

End more_on_fake.

(** ** Worked examples, continued *)

Section more_examples.
Import Example FakeNetlinkProtocolSocket NetlinkSystemHandler.

Lemma addRoute_then_deleteRoute_witness :
  (deleteRoute (route_10_8 via1)
     (addRoute (route_10_8 via1) kernel1).1).2 = Value 0.
Proof.
  destruct (addRoute_then_deleteRoute kernel1_ops (route_10_8 via1) _ eq_refl)
    as [Hret _].
  exact Hret.
Defined.

Lemma addIfAddress_then_deleteIfAddress_witness :
  deleteIfAddress (createIfAddress (H:=net) 1 net_192_168_1_1)
    (addIfAddress (createIfAddress (H:=net) 1 net_192_168_1_1) kernel1).1 =
  (kernel1, 0).
Proof.
  destruct (addIfAddress_then_deleteIfAddress kernel1_ops
              (createIfAddress (H:=net) 1 net_192_168_1_1))
    as (_ & _ & Hdel & _).
  - vm_compute. reflexivity.
  - exact Hdel.
Defined.

Lemma addIfaceAddresses_effect_witness :
  Some net_192_168_1_1 ∈
    IfAddress.getPrefix <$>
      addrsOf 1
        (semifuture_addIfaceAddresses "eth0" [net_192_168_1_1] kernel1).1.
Proof.
  destruct (addIfaceAddresses_effect kernel1_ops "eth0" 1 [net_192_168_1_1])
    as (Hin & _).
  - vm_compute. reflexivity.
  - apply (Hin net_192_168_1_1). by left.
Defined.

Lemma removeIfaceAddresses_effect_witness :
  Forall (λ x, IfAddress.getPrefix x ≠ Some net_10_0_0_1)
    (addrsOf 1
       (semifuture_removeIfaceAddresses "eth0" [net_10_0_0_1] kernel3).1).
Proof.
  destruct (removeIfaceAddresses_effect kernel3_ops "eth0" 1 [net_10_0_0_1])
    as (Hiff & _).
  - vm_compute. reflexivity.
  - apply Forall_forall. intros x Hx. apply Hiff in Hx as [_ Hne].
    apply (Hne net_10_0_0_1). by left.
Defined.

(** Adding 192.168.1.1/24 to lo, which has no address, then reading lo
    under family AF_INET and scope universe. *)
Lemma add_then_get_witness :
  ∃ s',
    semifuture_addIfaceAddresses "lo" [net_192_168_1_1] kernel1 =
      (s', SemiFuture (Value ())) ∧
    semifuture_getIfaceAddresses "lo" AF_INET RT_SCOPE_UNIVERSE s' =
      SemiFuture (Value [net_192_168_1_1]).
Proof.
  apply (add_then_get kernel1_ops "lo" 2 AF_INET net_192_168_1_1 []).
  - vm_compute. reflexivity.
  - reflexivity.
  - apply (bool_decide_unpack _). vm_compute. exact I.
  - right. reflexivity.
  - vm_compute. reflexivity.
Defined.


Lemma collectRetvals_first_failure_witness :
  collectRetvals [0; - EEXIST; - ENXIO; - ENODEV] =
  Raised (NlException "Address add/remove failed." ENXIO).
Proof.
  apply (collectRetvals_first_failure [0; - EEXIST] [- ENODEV] (- ENXIO)).
  - repeat constructor; apply benign_codes.
  - apply benign_codes.
Defined.

Lemma getIfIndex_first_match_witness :
  getIfIndex "lo" refusing = Some 2.
Proof.
  destruct (getIfIndex_first_match "lo" refusing) as [Hfirst _].
  apply (Hfirst [eth0] lo []); [reflexivity | | reflexivity].
  repeat constructor. discriminate.
Defined.

Lemma getAllLinks_failures_witness :
  semifuture_getAllLinks dangling = SemiFuture (Raised out_of_range) ∧
  semifuture_getAllLinks prefixless =
    SemiFuture (Raised bad_optional_access).
Proof.
  split.
  - destruct (getAllLinks_failures dangling) as [Hrange _]. apply Hrange.
    + apply Forall_singleton. simpl. eauto.
    + apply Exists_cons_hd. apply (bool_decide_unpack _).
      vm_compute. exact I.
  - destruct (getAllLinks_failures prefixless) as [_ Hprefix].
    apply Hprefix.
    + apply Forall_singleton. apply (bool_decide_unpack _).
      vm_compute. exact I.
    + apply Exists_cons_hd. reflexivity.
Defined.

Lemma addLink_then_getIfIndex_witness :
  getIfIndex "wlan0" (addLink wlan0 kernel1).1 = Some 3.
Proof.
  destruct (addLink_then_getIfIndex kernel1_ops wlan0) as (_ & Hfound & _).
  - apply (bool_decide_unpack _). vm_compute. exact I.
  - intros l Hl. refine (proj1 (getIfIndex_None "wlan0" kernel1) _ l Hl).
    vm_compute. reflexivity.
  - exact Hfound.
Defined.

(** eth0 carries 10.0.0.1/24 (universe) and fe80::1/64 (link); a sync of
    eth0 to no address under scope universe keeps fe80::1/64. *)
Lemma sync_spares_unfiltered_witness :
  createIfAddress (H:=net) 1 net_fe80_1 ∈
    addrsOf 1
      (semifuture_syncIfaceAddresses "eth0" 0 RT_SCOPE_UNIVERSE []
         kernel3).1.
Proof.
  destruct (sync_spares_unfiltered kernel3_ops "eth0" 0 RT_SCOPE_UNIVERSE
              [] 1) as (Hkeep & _).
  - vm_compute. reflexivity.
  - reflexivity.
  - apply Hkeep.
    + apply list_elem_of_In. vm_compute. right. left. reflexivity.
    + intros [_ Hscope]. vm_compute in Hscope. discriminate Hscope.
Defined.

Lemma mpls_route_without_label_witness :
  (addRoute mplsNoLabel kernel1).2 = Raised bad_optional_access ∧
  (deleteRoute mplsNoLabel kernel1).2 = Raised bad_optional_access.
Proof.
  destruct (mpls_route_without_label kernel1_ops mplsNoLabel)
    as (Hadd & Hdel & _); [reflexivity | reflexivity |].
  split; [exact Hadd | exact Hdel].
Defined.

End more_examples.
